(** * CosineAnnealingWarmupRestarts (bkh_pytorch_utils/py/utils.py)

    A shallow embedding of the cyclic warm-up learning-rate schedule and the
    properties of its specification.

    Numbers.  Python [int] attributes are integers of [Z].  Python [float]
    values are modelled by real numbers: every arithmetic operation is the
    exact one, rounding and overflow are not modelled.  An attribute that the
    code can assign a float to ([cur_cycle_steps], [step_in_cycle], the rates)
    is a real; [cycle] and [last_epoch] only ever hold ints.

    The definitions are over the reals, so they are evaluated by rewriting
    with their equations, not by computation.

    Arguments.  The target of an explicit [step(epoch)] is an int, as the
    interface of the specification has it.  The optimizer is the list of the
    rates of its parameter groups; the groups are those of an optimizer that
    no scheduler has been attached to before, so they carry an ['lr'] entry
    and no ['initial_lr'] entry.

    Exceptions.  A raising operation leaves the attributes assigned so far in
    place, so a method is a function from the object to an outcome and the
    object after the call.

    Base class.  [CosineAnnealingWarmupRestarts] extends
    [torch.optim.lr_scheduler._LRScheduler].  Its initialiser first looks at
    [last_epoch]: for [-1] it records every group's rate as its
    ['initial_lr'], for any other value it raises [KeyError] at the first
    group without an ['initial_lr'] entry.  It ends with the initial call of
    [self.step()]: a constructed instance has taken step 0. *)

From Stdlib Require Import String Ascii.
From Stdlib Require Import Reals ZArith List Bool Lia Lra.
From Stdlib Require Import Permutation.
Import ListNotations.

Open Scope R_scope.

(** ** Python operations *)

Inductive exn : Type :=
| AssertionError
| ZeroDivisionError
| ValueError
| KeyError.

Inductive result (A : Type) : Type :=
| Ok (a : A)
| Raise (e : exn).

Arguments Ok {A} a.
Arguments Raise {A} e.

Definition rbind {A B : Type} (r : result A) (k : A -> result B) : result B :=
  match r with
  | Ok a => k a
  | Raise e => Raise e
  end.

(** [int(x)]: truncation towards zero. *)
Definition int (x : R) : Z :=
  if Rle_dec 0 x then Zfloor x else Zceil x.

(** [a / b]. *)
Definition truediv (a b : R) : result R :=
  if Req_dec_T b 0 then Raise ZeroDivisionError else Ok (a / b).

(** [a % b] and [a // b] on ints: Python rounds the quotient down, as [Z.div]
    does. *)
Definition floormod (a b : Z) : result Z :=
  if Z.eq_dec b 0 then Raise ZeroDivisionError else Ok (a mod b)%Z.

Definition floordiv (a b : Z) : result Z :=
  if Z.eq_dec b 0 then Raise ZeroDivisionError else Ok (a / b)%Z.

(** [b ** n] with a float base and an int exponent. *)
Definition float_pow (b : R) (n : Z) : result R :=
  if Req_dec_T b 0 then
    if (n <? 0)%Z then Raise ZeroDivisionError else Ok (powerRZ b n)
  else Ok (powerRZ b n).

(** [math.log(x, base)]: the quotient of the two natural logarithms, each of
    which needs a positive argument. *)
Definition math_log (x base : R) : result R :=
  if Rle_dec x 0 then Raise ValueError
  else if Rle_dec base 0 then Raise ValueError
  else truediv (ln x) (ln base).

(** A list comprehension whose element expression can raise. *)
Fixpoint for_each {A B : Type} (f : A -> result B) (l : list A)
  : result (list B) :=
  match l with
  | [] => Ok []
  | a :: l' =>
      rbind (f a) (fun b => rbind (for_each f l') (fun bs => Ok (b :: bs)))
  end.

(** [for g, lr in zip(groups, lrs): g['lr'] = lr]. *)
Fixpoint assign (groups lrs : list R) : list R :=
  match groups, lrs with
  | _ :: gs, lr :: ls => lr :: assign gs ls
  | _, _ => groups
  end.

(** ** The scheduler object *)

(** The constructor arguments kept unchanged on the object. *)
Record config : Type := Config {
  first_cycle_steps : Z;
  cycle_mult : R;
  base_max_lr : R;
  min_lr : R;
  warmup_steps : Z;
  gamma : R
}.

(** The attributes that [step] assigns, with [param_lrs] the ['lr'] entries of
    [optimizer.param_groups]. *)
Record sched : Type := Sched {
  max_lr : R;
  cur_cycle_steps : R;
  cycle : Z;
  step_in_cycle : R;
  last_epoch : Z;
  base_lrs : list R;
  param_lrs : list R
}.

Definition set_max_lr (v : R) (s : sched) : sched :=
  Sched v (cur_cycle_steps s) (cycle s) (step_in_cycle s) (last_epoch s)
        (base_lrs s) (param_lrs s).

Definition set_cur_cycle_steps (v : R) (s : sched) : sched :=
  Sched (max_lr s) v (cycle s) (step_in_cycle s) (last_epoch s)
        (base_lrs s) (param_lrs s).

Definition set_cycle (v : Z) (s : sched) : sched :=
  Sched (max_lr s) (cur_cycle_steps s) v (step_in_cycle s) (last_epoch s)
        (base_lrs s) (param_lrs s).

Definition set_step_in_cycle (v : R) (s : sched) : sched :=
  Sched (max_lr s) (cur_cycle_steps s) (cycle s) v (last_epoch s)
        (base_lrs s) (param_lrs s).

Definition set_last_epoch (v : Z) (s : sched) : sched :=
  Sched (max_lr s) (cur_cycle_steps s) (cycle s) (step_in_cycle s) v
        (base_lrs s) (param_lrs s).

Definition set_base_lrs (v : list R) (s : sched) : sched :=
  Sched (max_lr s) (cur_cycle_steps s) (cycle s) (step_in_cycle s)
        (last_epoch s) v (param_lrs s).

Definition set_param_lrs (v : list R) (s : sched) : sched :=
  Sched (max_lr s) (cur_cycle_steps s) (cycle s) (step_in_cycle s)
        (last_epoch s) (base_lrs s) v.

(** ** Methods: a state monad with exceptions *)

Definition M (A : Type) : Type := sched -> result A * sched.

Definition ret {A : Type} (a : A) : M A := fun s => (Ok a, s).

Definition bind {A B : Type} (m : M A) (k : A -> M B) : M B :=
  fun s =>
    match m s with
    | (Ok a, s') => k a s'
    | (Raise e, s') => (Raise e, s')
    end.

Definition lift {A : Type} (r : result A) : M A := fun s => (r, s).

Definition attr {A : Type} (f : sched -> A) : M A := fun s => (Ok (f s), s).

Definition assign_attr (f : sched -> sched) : M unit := fun s => (Ok tt, f s).

Declare Scope py_scope.
Delimit Scope py_scope with py.

Notation "x <- m ;; k" := (bind m (fun x => k))
  (at level 61, m at next level, right associativity) : py_scope.
Notation "m ;; k" := (bind m (fun _ => k))
  (at level 61, right associativity) : py_scope.

Open Scope py_scope.

Section Scheduler.

Variable cfg : config.

Local Abbreviation first := (first_cycle_steps cfg).
Local Abbreviation warmup := (warmup_steps cfg).
Local Abbreviation mult := (cycle_mult cfg).

(** [init_lr]: every group's rate and every base rate becomes [min_lr]. *)
Definition init_lr (s : sched) : sched :=
  let floor := map (fun _ => min_lr cfg) (param_lrs s) in
  set_base_lrs floor (set_param_lrs floor s).

(** The warm-up expression of [get_lr] for one group. *)
Definition warmup_lr (s : sched) (base_lr : R) : result R :=
  rbind (truediv ((max_lr s - base_lr) * step_in_cycle s) (IZR warmup))
        (fun q => Ok (q + base_lr)).

(** The cosine expression of [get_lr] for one group. *)
Definition cosine_lr (s : sched) (base_lr : R) : result R :=
  rbind (truediv (PI * (step_in_cycle s - IZR warmup))
                 (cur_cycle_steps s - IZR warmup))
        (fun q => Ok (base_lr + (max_lr s - base_lr) * (1 + cos q) / 2)).

(** [self.cycle > 0 and self.cycle_mult == 0]. *)
Definition degenerate (s : sched) : bool :=
  (0 <? cycle s)%Z && (if Req_dec_T mult 0 then true else false).

Definition get_lr (s : sched) : result (list R) :=
  if degenerate s then Ok (base_lrs s)
  else if Req_dec_T (step_in_cycle s) (-1) then Ok (base_lrs s)
  else if Rlt_dec (step_in_cycle s) (IZR warmup)
       then for_each (warmup_lr s) (base_lrs s)
       else for_each (cosine_lr s) (base_lrs s).

(** The [epoch is None] branch of [step]; it yields the value of [epoch]. *)
Definition advance_implicit : M Z :=
  e <- attr last_epoch ;;
  sic <- attr step_in_cycle ;;
  assign_attr (set_step_in_cycle (sic + 1)) ;;
  sic <- attr step_in_cycle ;;
  cur <- attr cur_cycle_steps ;;
  (if Rge_dec sic cur then
     c <- attr cycle ;;
     assign_attr (set_cycle (c + 1)) ;;
     assign_attr (set_step_in_cycle (sic - cur)) ;;
     assign_attr
       (set_cur_cycle_steps
          (IZR (int ((cur - IZR warmup) * mult)) + IZR warmup))
   else ret tt) ;;
  ret (e + 1)%Z.

(** The branch of [step] for a given [epoch]. *)
Definition advance_explicit (epoch : Z) : M Z :=
  (if Z_ge_dec epoch first then
     if Req_dec_T mult 1 then
       m <- lift (floormod epoch first) ;;
       assign_attr (set_step_in_cycle (IZR m)) ;;
       d <- lift (floordiv epoch first) ;;
       assign_attr (set_cycle d)
     else
       q <- lift (truediv (IZR epoch) (IZR first)) ;;
       l <- lift (math_log (q * (mult - 1) + 1) mult) ;;
       let n := int l in
       assign_attr (set_cycle n) ;;
       p <- lift (float_pow mult n) ;;
       t <- lift (truediv (IZR first * (p - 1)) (mult - 1)) ;;
       assign_attr (set_step_in_cycle (IZR epoch - IZR (int t))) ;;
       p' <- lift (float_pow mult n) ;;
       assign_attr (set_cur_cycle_steps (IZR first * p'))
   else
     assign_attr (set_cur_cycle_steps (IZR first)) ;;
     assign_attr (set_step_in_cycle (IZR epoch))) ;;
  ret epoch.

(** The last two lines of [step]: the rates are written to the groups. *)
Definition apply_lrs : M unit :=
  fun s =>
    match get_lr s with
    | Ok lrs => (Ok tt, set_param_lrs (assign (param_lrs s) lrs) s)
    | Raise e => (Raise e, s)
    end.

Definition step (epoch : option Z) : M unit :=
  e <- match epoch with
       | None => advance_implicit
       | Some t => advance_explicit t
       end ;;
  c <- attr cycle ;;
  g <- lift (float_pow (gamma cfg) c) ;;
  assign_attr (set_max_lr (base_max_lr cfg * g)) ;;
  assign_attr (set_last_epoch e) ;;
  apply_lrs.

(** The check of the base-class initialiser when an instance resumes at a
    [last_epoch] other than [-1]: the first group, which has no
    ['initial_lr'] entry, raises [KeyError]. *)
Definition initial_lr_check (last_epoch0 : Z) (optimizer : list R)
  : result unit :=
  if Z.eq_dec last_epoch0 (-1) then Ok tt
  else match optimizer with
       | [] => Ok tt
       | _ :: _ => Raise KeyError
       end.

(** [__init__].  The assertion comes first; then the attributes are
    assigned; then the initialiser of the base class
    [torch.optim.lr_scheduler._LRScheduler] runs: it checks the groups,
    takes [base_lrs] from them, stores [last_epoch] and performs the initial
    [self.step()]; at last [init_lr] runs.  An exception leaves no
    object. *)
Definition init (last_epoch0 : Z) (optimizer : list R) : result sched :=
  if Z_lt_dec warmup first then
    let self :=
      Sched (base_max_lr cfg) (IZR first) 0 (IZR last_epoch0) last_epoch0
            optimizer optimizer in
    match initial_lr_check last_epoch0 optimizer with
    | Ok _ =>
        match step None self with
        | (Ok _, self') => Ok (init_lr self')
        | (Raise e, _) => Raise e
        end
    | Raise e => Raise e
    end
  else Raise AssertionError.

(** A fresh instance: the default [last_epoch = -1]. *)
Definition fresh (optimizer : list R) : result sched := init (-1) optimizer.

(** The object after a call, whatever its outcome. *)
Definition after (epoch : option Z) (s : sched) : sched := snd (step epoch s).

(** A script calling [step] with the given arguments, one call after the
    other; an exception ends it. *)
Fixpoint run (calls : list (option Z)) : M unit :=
  match calls with
  | [] => ret tt
  | e :: rest => step e ;; run rest
  end.

(** [advances allowed s s']: calls of [step], each with an argument that
    [allowed] admits in the state it is made in, take the object from [s]
    to [s']. *)
Inductive advances (allowed : sched -> option Z -> Prop)
  : sched -> sched -> Prop :=
| adv_refl s : advances allowed s s
| adv_step s s' epoch :
    advances allowed s s' -> allowed s' epoch ->
    advances allowed s (after epoch s').

(** The states of an object constructed fresh over [optimizer] and then
    advanced. *)
Definition reachable (allowed : sched -> option Z -> Prop)
           (optimizer : list R) (s : sched) : Prop :=
  exists s0, fresh optimizer = Ok s0 /\ advances allowed s0 s.

(** Which calls a property is stated for. *)
Definition any_call (_ : sched) (_ : option Z) : Prop := True.

Definition implicit_call (_ : sched) (epoch : option Z) : Prop :=
  epoch = None.

(** The target of an explicit call is an absolute step count. *)
Definition step_count_call (_ : sched) (epoch : option Z) : Prop :=
  forall t, epoch = Some t -> (0 <= t)%Z.

(** The target of an explicit call is not behind the steps counted. *)
Definition target_not_behind (s : sched) (epoch : option Z) : Prop :=
  forall t, epoch = Some t -> (last_epoch s <= t)%Z.

(** An implicit call, or under [cycle_mult == 1.] an explicit call to a
    step count. *)
Definition consistent_call (_ : sched) (epoch : option Z) : Prop :=
  epoch = None \/
  (mult = 1 /\ exists t, epoch = Some t /\ (0 <= t)%Z).

(** The invariant of the data model. *)
Definition cycle_invariant (s : sched) : Prop :=
  0 <= step_in_cycle s < cur_cycle_steps s /\
  max_lr s = base_max_lr cfg * powerRZ (gamma cfg) (cycle s) /\
  IZR warmup < cur_cycle_steps s.

(** The value the rate expression of [get_lr] has for one group when no
    division raises. *)
Definition lr_value (s : sched) (base_lr : R) : R :=
  if degenerate s then base_lr
  else if Req_dec_T (step_in_cycle s) (-1) then base_lr
  else if Rlt_dec (step_in_cycle s) (IZR warmup)
       then (max_lr s - base_lr) * step_in_cycle s / IZR warmup + base_lr
       else base_lr + (max_lr s - base_lr)
              * (1 + cos (PI * (step_in_cycle s - IZR warmup)
                          / (cur_cycle_steps s - IZR warmup))) / 2.

(** No division of the rate expression is by zero. *)
Definition safe (s : sched) : Prop :=
  degenerate s = true \/ step_in_cycle s = -1 \/
  (step_in_cycle s < IZR warmup /\ IZR warmup <> 0) \/
  (IZR warmup <= step_in_cycle s /\ cur_cycle_steps s <> IZR warmup).

(** The rates of the groups right after [init_lr]. *)
Definition floors (optimizer : list R) : list R :=
  map (fun _ => min_lr cfg) optimizer.

(** The fresh instance of a configuration that passes the assertion. *)
Definition started (optimizer : list R) : sched :=
  Sched (base_max_lr cfg) (IZR first) 0 0 0
        (floors optimizer) (floors optimizer).

(** The object stands in cycle [c] of length [len] at position [pos],
    with [e] steps counted, over the groups of [optimizer]. *)
Definition placed (optimizer : list R) (s : sched)
           (c : Z) (len pos : R) (e : Z) : Prop :=
  cycle s = c /\ cur_cycle_steps s = len /\ step_in_cycle s = pos /\
  last_epoch s = e /\
  max_lr s = base_max_lr cfg * powerRZ (gamma cfg) c /\
  base_lrs s = floors optimizer /\
  length (param_lrs s) = length optimizer.

(** A position inside a cycle of integer length above the warm-up. *)
Definition steady (optimizer : list R) (s : sched) : Prop :=
  exists (c z : Z) (pos : R) (e : Z),
    placed optimizer s c (IZR z) pos e /\
    (0 <= c)%Z /\ (warmup < z)%Z /\ 0 <= pos < IZR z /\
    (mult = 1 -> z = first).

(** While no restart has happened the cycle length is still
    [first_cycle_steps]. *)
Definition first_cycle_kept (optimizer : list R) (s : sched) : Prop :=
  (0 <= cycle s)%Z /\
  (cycle s = 0%Z -> cur_cycle_steps s = IZR first) /\
  base_lrs s = floors optimizer /\
  length (param_lrs s) = length optimizer.

(** The groups hold the rate of the current position. *)
Definition synced (optimizer : list R) (s : sched) : Prop :=
  param_lrs s = map (fun _ => lr_value s (min_lr cfg)) optimizer.

End Scheduler.

(** ** The rate as the specification words it *)

(** Linear interpolation from [floor] to [peak] with fraction
    [pos / warm] during warm-up, cosine decay over the remaining
    [len - warm] steps afterwards. *)
Definition spec_rate (floor peak pos warm len : R) : R :=
  if Rlt_dec pos warm then floor + (peak - floor) * (pos / warm)
  else floor + (peak - floor) * (1 + cos (PI * (pos - warm) / (len - warm))) / 2.

(** [cur_cycle_steps] holds an integer. *)
Definition integral (x : R) : Prop := exists z : Z, x = IZR z.

(** ** Configurations of the scenarios *)

(** [first_cycle_steps=10, warmup_steps=2, max_lr=0.1, min_lr=0.0,
    cycle_mult=1.0, gamma=1.0]. *)
Definition scenario : config := Config 10 1 0.1 0 2 1.

(** [first_cycle_steps=10, max_lr=0.1, min_lr=0.001] and the defaults
    [cycle_mult=1.0, warmup_steps=0, gamma=1.0]. *)
Definition no_warmup : config := Config 10 1 0.1 0.001 0 1.

(** [first_cycle_steps=3, cycle_mult=0.25, warmup_steps=2]: cycles shrink. *)
Definition shrinking : config := Config 3 0.25 0.1 0.001 2 1.

(** [first_cycle_steps=10, cycle_mult=2.0, warmup_steps=2]. *)
Definition doubling : config := Config 10 2 0.1 0.001 2 1.

(** [first_cycle_steps=10, cycle_mult=1.5, warmup_steps=0]. *)
Definition growing : config := Config 10 1.5 0.1 0.001 0 1.

(** [first_cycle_steps=10, cycle_mult=0.0, warmup_steps=2]. *)
Definition collapsing : config := Config 10 0 0.1 0.001 2 1.

(** [first_cycle_steps=10, cycle_mult=0.0] and the default
    [warmup_steps=0]. *)
Definition collapsing_no_warmup : config := Config 10 0 0.1 0.001 0 1.

(** [first_cycle_steps=0, cycle_mult=0.5, warmup_steps=-1]: the assertion
    of the constructor holds. *)
Definition empty_first_cycle : config := Config 0 0.5 0.1 0.001 (-1) 1.

(** An optimizer with one parameter group, of rate 0.01. *)
Definition one_group : list R := [0.01].

(** After [k] implicit calls on [s0] the step count is [k], [cycle] is [c]
    and every group holds the rate [r], which [get_lr] returns as well. *)
Definition stepped (cfg : config) (optimizer : list R) (s0 : sched)
           (k : nat) (c : Z) (r : R) : Prop :=
  exists s,
    run cfg (repeat None k) s0 = (Ok tt, s) /\
    last_epoch s = Z.of_nat k /\ cycle s = c /\
    param_lrs s = map (fun _ => r) optimizer /\
    get_lr cfg s = Ok (map (fun _ => r) optimizer).

(** ** The other helpers of [utils.py] *)

(** [s.endswith(suffix)]. *)
Definition endswith (s suffix : string) : bool :=
  (String.length suffix <=? String.length s)%nat &&
  String.eqb
    (substring (String.length s - String.length suffix)
               (String.length suffix) s)
    suffix.

(** *** [add_weight_decay] *)

Section WeightDecay.

(** A [torch.nn.Parameter], with the two attributes the function reads. *)
Variable parameter : Type.
Variable shape : parameter -> list nat.
Variable requires_grad : parameter -> bool.

(** A dict [{'params': ..., 'weight_decay': ...}]. *)
Record param_group : Type := ParamGroup {
  params : list parameter;
  weight_decay : R
}.

(** [len(param.shape) == 1 or name.endswith(".bias") or name in skip_list]. *)
Definition no_decay_rule (skip_list : list string) (name : string)
           (param : parameter) : bool :=
  (length (shape param) =? 1)%nat
  || endswith name ".bias"
  || existsb (String.eqb name) skip_list.

(** The body of the loop, on the lists [(decay, no_decay)]. *)
Definition collect (skip_list : list string)
           (lists : list parameter * list parameter)
           (entry : string * parameter) : list parameter * list parameter :=
  let (decay, no_decay) := lists in
  let (name, param) := entry in
  if negb (requires_grad param) then lists
  else if no_decay_rule skip_list name param
       then (decay, no_decay ++ [param])
       else (decay ++ [param], no_decay).

(** [add_weight_decay(model, weight_decay, skip_list)], with the model given
    by its [named_parameters()]. *)
Definition add_weight_decay (named_parameters : list (string * parameter))
           (rate : R) (skip_list : list string) : list param_group :=
  let (decay, no_decay) :=
    fold_left (collect skip_list) named_parameters ([], []) in
  [ParamGroup no_decay 0; ParamGroup decay rate].

End WeightDecay.

(** *** [load_weights] *)

Section LoadWeights.

Variable tensor : Type.

(** A Python dict with string keys, in insertion order. *)
Definition state_dict : Type := list (string * tensor).

(** [k in d]. *)
Definition dict_contains (k : string) (d : state_dict) : bool :=
  existsb (fun kv => String.eqb k (fst kv)) d.

(** [d.get(k)]. *)
Fixpoint dict_get (k : string) (d : state_dict) : option tensor :=
  match d with
  | [] => None
  | (k', v) :: d' => if String.eqb k k' then Some v else dict_get k d'
  end.

(** [d[k] = v]: the value of a present key is replaced in place, a new key
    goes to the end. *)
Fixpoint dict_set (k : string) (v : tensor) (d : state_dict) : state_dict :=
  match d with
  | [] => [(k, v)]
  | (k', v') :: d' =>
      if String.eqb k k' then (k', v) :: d' else (k', v') :: dict_set k v d'
  end.

(** [d.update(other)]. *)
Definition dict_update (d other : state_dict) : state_dict :=
  fold_left (fun acc kv => dict_set (fst kv) (snd kv) acc) other d.

(** [{k: v for k, v in weights.items() if k in model_dict}]. *)
Definition matching_weights (weights model_dict : state_dict) : state_dict :=
  filter (fun kv => dict_contains (fst kv) model_dict) weights.

(** The module, with its two methods. *)
Variable module : Type.
Variable get_state_dict : module -> state_dict.
Variable load_state_dict : module -> state_dict -> module.

(** [load_weights(model, weight_path)], with [weights] what
    [torch.load(weight_path)] returns. *)
Definition load_weights (model : module) (weights : state_dict) : module :=
  let model_dict := get_state_dict model in
  let weights' := matching_weights weights model_dict in
  load_state_dict model (dict_update model_dict weights').

End LoadWeights.

(** *** [one_hot_encode] *)

(** Python's [AssertionError] and [ZeroDivisionError], and the
    [RuntimeError] of a tensor operation. *)
Inductive failure : Type :=
| Assertion_failed
| Division_by_zero
| Runtime_error.

Inductive outcome (A : Type) : Type :=
| Returned (a : A)
| Failed (f : failure).

Arguments Returned {A} a.
Arguments Failed {A} f.

(** The labels: a 1-D tensor of class indices, or a 2-D float tensor with
    [cols] columns given by its rows.  Such a tensor is no index for
    [scatter_], which raises for it unless it has no rows: with no element
    to scatter, [scatter_] returns at once. *)
Inductive labels : Type :=
| ClassIndices (indices : list Z)
| Dense (cols : nat) (rows : list (list R)).

(** A row of [fill_] values with [confidence] scattered at [index]. *)
Definition scatter_row (classes : nat) (fill confidence : R) (index : Z)
  : list R :=
  map (fun j => if (Z.of_nat j =? index)%Z then confidence else fill)
      (seq 0 classes).

(** [torch.where(true_labels == 1.0, confidence, smoothing)] on one row. *)
Definition where_one (confidence smoothing : R) (row : list R) : list R :=
  map (fun x => if Req_dec_T x 1 then confidence else smoothing) row.

Definition one_hot_encode (true_labels : labels) (classes : Z) (smoothing : R)
  : outcome (list (list R)) :=
  if Rle_dec 0 smoothing then
    if Rlt_dec smoothing 1 then
      let confidence := 1 - smoothing in
      let scattered (indices : option (list Z)) :=
        (* [torch.empty], then [smoothing / (classes - 1)], then [scatter_] *)
        if (classes <? 0)%Z then Failed Runtime_error
        else if (classes =? 1)%Z then Failed Division_by_zero
        else match indices with
             | Some indices =>
                 if forallb (fun i => (0 <=? i)%Z && (i <? classes)%Z) indices
                 then Returned
                        (map (scatter_row (Z.to_nat classes)
                                (smoothing / IZR (classes - 1)) confidence)
                             indices)
                 else Failed Runtime_error
             | None => Failed Runtime_error
             end in
      match true_labels with
      | Dense cols rows =>
          if (Z.of_nat cols =? classes)%Z
          then Returned (map (where_one confidence smoothing) rows)
          else match rows with
               | [] => scattered (Some [])
               | _ :: _ => scattered None
               end
      | ClassIndices indices => scattered (Some indices)
      end
    else Failed Assertion_failed
  else Failed Assertion_failed.

(** The sum of the entries of a row. *)
Fixpoint total (row : list R) : R :=
  match row with
  | [] => 0
  | x :: row' => x + total row'
  end.

(** *** [plot_confusion_matrix]: the default column names *)

(** [list(ascii_uppercase)]. *)
Definition ascii_uppercase : list string :=
  ["A"; "B"; "C"; "D"; "E"; "F"; "G"; "H"; "I"; "J"; "K"; "L"; "M";
   "N"; "O"; "P"; "Q"; "R"; "S"; "T"; "U"; "V"; "W"; "X"; "Y"; "Z"]%string.

(** [['Class %s' % i for i in list(ascii_uppercase)[0:len(np.unique(targets))]]]. *)
Definition default_columns (targets : list Z) : list string :=
  map (fun i => ("Class " ++ i)%string)
      (firstn (length (nodup Z.eq_dec targets)) ascii_uppercase).

(** *** [split_data]: the shuffle options handed to the splitter *)

(** Lines 222-225: [shuffle] and [random_state] as the splitter gets them. *)
Definition shuffle_options (shuffle : bool) (random_state : option Z)
  : bool * option Z :=
  match random_state with
  | Some seed => (true, Some seed)
  | None => if shuffle then (shuffle, Some 42%Z) else (shuffle, None)
  end.

(** *** [NonSparseCrossEntropyLoss] *)

(** The sum of [f 0], ..., [f (n - 1)]. *)
Fixpoint range_sum (n : nat) (f : nat -> R) : R :=
  match n with
  | O => 0
  | S k => range_sum k f + f k
  end.

(** [log_softmax] over the [C] entries of a row. *)
Definition log_softmax (C : nat) (row : nat -> R) (j : nat) : R :=
  row j - ln (range_sum C (fun k => exp (row k))).

(** What [forward] returns: a 0-d tensor, the [nan] of the mean of no
    sample, or one loss per sample. *)
Inductive loss_value : Type :=
| Scalar (x : R)
| Nan
| PerSample (losses : list R).

(** The loss of one sample: [-(targets * lsm).sum(-1)], with [lsm] multiplied
    by the class weights when there are any. *)
Definition sample_loss (C : nat) (weight : option (nat -> R))
           (input target : nat -> R) : R :=
  let lsm j :=
    match weight with
    | Some w => log_softmax C input j * w j
    | None => log_softmax C input j
    end in
  - range_sum C (fun j => target j * lsm j).

(** [forward(inputs, targets)] for [inputs] and [targets] of shape [(N, C)],
    entry [(i, j)] given by [inputs i j], and a [weight] of [C] entries. *)
Definition forward (weight : option (nat -> R)) (reduction : string)
           (N C : nat) (inputs targets : nat -> nat -> R) : loss_value :=
  let loss i := sample_loss C weight (inputs i) (targets i) in
  if String.eqb reduction "sum" then Scalar (range_sum N loss)
  else if String.eqb reduction "mean" then
    match N with
    | O => Nan
    | S _ => Scalar (range_sum N loss / INR N)
    end
  else PerSample (map loss (seq 0 N)).

(** ** Python operations: basic facts *)

Lemma int_IZR (z : Z) : int (IZR z) = z.
Proof.
  unfold int. destruct (Rle_dec 0 (IZR z)) as [_ | _].
  - apply ZfloorZ.
  - apply Zceil_eq. lra.
Qed.

Lemma int_floor (x : R) : 0 <= x -> int x = Zfloor x.
Proof.
  intros Hx. unfold int. destruct (Rle_dec 0 x) as [_ | Hn]; [reflexivity | lra].
Qed.

Lemma int_eq (z : Z) (x : R) : 0 <= x -> IZR z <= x < IZR z + 1 -> int x = z.
Proof.
  intros Hx Hz. rewrite int_floor by assumption. now apply Zfloor_eq.
Qed.

Lemma int_growth (z : Z) (x : R) : 0 <= IZR z <= x -> (z <= int x)%Z.
Proof.
  intros [Hz Hx]. rewrite int_floor by lra. now apply Zfloor_lub.
Qed.

Lemma float_pow_nonneg (b : R) (n : Z) :
  (0 <= n)%Z -> float_pow b n = Ok (powerRZ b n).
Proof.
  intros Hn. unfold float_pow.
  destruct (Req_dec_T b 0) as [_ | _]; [| reflexivity].
  destruct (Z.ltb_spec n 0); [lia | reflexivity].
Qed.

Lemma truediv_ok (a b : R) : b <> 0 -> truediv a b = Ok (a / b).
Proof.
  intros Hb. unfold truediv. destruct (Req_dec_T b 0); [contradiction | reflexivity].
Qed.

Lemma for_each_ok {A B : Type} (f : A -> result B) (g : A -> B) (l : list A) :
  (forall a, In a l -> f a = Ok (g a)) -> for_each f l = Ok (map g l).
Proof.
  induction l as [| a l IH]; intros Hf; simpl; [reflexivity |].
  rewrite (Hf a) by (now left). simpl.
  rewrite IH by (intros b Hb; apply Hf; now right). reflexivity.
Qed.

Lemma assign_full (groups lrs : list R) :
  length groups = length lrs -> assign groups lrs = lrs.
Proof.
  revert lrs. induction groups as [| g gs IH]; intros [| l ls] Hlen;
    simpl in *; try discriminate; [reflexivity |].
  f_equal. apply IH. lia.
Qed.

Lemma assign_length (groups lrs : list R) :
  length (assign groups lrs) = length groups.
Proof.
  revert lrs. induction groups as [| g gs IH]; intros [| l ls]; simpl;
    try reflexivity.
  now rewrite IH.
Qed.

(** ** The methods, one call at a time *)

Section StepFacts.

Variable cfg : config.

Local Abbreviation first := (first_cycle_steps cfg).
Local Abbreviation warmup := (warmup_steps cfg).
Local Abbreviation mult := (cycle_mult cfg).

Lemma get_lr_value (s : sched) :
  safe cfg s -> get_lr cfg s = Ok (map (lr_value cfg s) (base_lrs s)).
Proof.
  unfold safe, get_lr, lr_value. intros Hsafe.
  destruct (degenerate cfg s) eqn:Hdeg.
  { now rewrite map_id. }
  destruct (Req_dec_T (step_in_cycle s) (-1)) as [Hm | Hm].
  { now rewrite map_id. }
  destruct Hsafe as [H | [H | [[Hlt Hw] | [Hge Hc]]]]; try discriminate;
    try contradiction.
  - destruct (Rlt_dec (step_in_cycle s) (IZR warmup)) as [_ | Hn];
      [| contradiction].
    apply for_each_ok. intros b _. unfold warmup_lr.
    now rewrite truediv_ok.
  - destruct (Rlt_dec (step_in_cycle s) (IZR warmup)) as [Hn | _];
      [lra |].
    apply for_each_ok. intros b _. unfold cosine_lr.
    rewrite truediv_ok by lra. reflexivity.
Qed.

Lemma get_lr_length (s : sched) (lrs : list R) :
  get_lr cfg s = Ok lrs -> length lrs = length (base_lrs s).
Proof.
  assert (Hfe : forall (f : R -> result R) l r,
             for_each f l = Ok r -> length r = length l).
  { intros f l. induction l as [| a l IH]; simpl; intros r Hr.
    - now inversion Hr.
    - destruct (f a); simpl in Hr; [| discriminate].
      destruct (for_each f l) eqn:E; simpl in Hr; [| discriminate].
      inversion Hr; subst. simpl. f_equal. now apply IH. }
  unfold get_lr. intros H.
  destruct (degenerate cfg s); [now inversion H |].
  destruct (Req_dec_T _ _); [now inversion H |].
  destruct (Rlt_dec _ _); eapply Hfe; eassumption.
Qed.

(** [apply_lrs] touches the groups only. *)
Lemma apply_lrs_fields (s : sched) :
  let s' := snd (apply_lrs cfg s) in
  max_lr s' = max_lr s /\ cur_cycle_steps s' = cur_cycle_steps s /\
  cycle s' = cycle s /\ step_in_cycle s' = step_in_cycle s /\
  last_epoch s' = last_epoch s /\ base_lrs s' = base_lrs s /\
  length (param_lrs s') = length (param_lrs s).
Proof.
  unfold apply_lrs. destruct (get_lr cfg s); simpl; repeat split;
    try reflexivity.
  apply assign_length.
Qed.

Lemma apply_lrs_safe (s : sched) :
  safe cfg s -> length (param_lrs s) = length (base_lrs s) ->
  apply_lrs cfg s =
    (Ok tt, set_param_lrs (map (lr_value cfg s) (base_lrs s)) s).
Proof.
  intros Hsafe Hlen. unfold apply_lrs. rewrite get_lr_value by assumption.
  rewrite assign_full; [reflexivity |]. now rewrite length_map.
Qed.

(** The implicit call, with its branches laid out. *)
Lemma step_implicit_unfold (s : sched) :
  step cfg None s =
    let pos := step_in_cycle s + 1 in
    let s1 :=
      if Rge_dec pos (cur_cycle_steps s) then
        Sched (max_lr s)
              (IZR (int ((cur_cycle_steps s - IZR warmup) * mult))
               + IZR warmup)
              (cycle s + 1) (pos - cur_cycle_steps s) (last_epoch s)
              (base_lrs s) (param_lrs s)
      else set_step_in_cycle pos s in
    match float_pow (gamma cfg) (cycle s1) with
    | Ok g =>
        apply_lrs cfg
          (set_last_epoch (last_epoch s + 1)
             (set_max_lr (base_max_lr cfg * g) s1))
    | Raise e => (Raise e, s1)
    end.
Proof.
  unfold step, advance_implicit, bind, attr, assign_attr, ret, lift. simpl.
  destruct (Rge_dec (step_in_cycle s + 1) (cur_cycle_steps s)); simpl;
    destruct (float_pow (gamma cfg) _); reflexivity.
Qed.

(** An implicit call that stays inside the cycle. *)
Lemma step_implicit_stay (s : sched) :
  step_in_cycle s + 1 < cur_cycle_steps s -> (0 <= cycle s)%Z ->
  step cfg None s =
    apply_lrs cfg
      (Sched (base_max_lr cfg * powerRZ (gamma cfg) (cycle s))
             (cur_cycle_steps s) (cycle s) (step_in_cycle s + 1)
             (last_epoch s + 1) (base_lrs s) (param_lrs s)).
Proof.
  intros Hlt Hc. rewrite step_implicit_unfold. cbv zeta.
  destruct (Rge_dec _ _) as [Hge | _]; [lra |].
  simpl. rewrite float_pow_nonneg by assumption. reflexivity.
Qed.

(** An implicit call that restarts. *)
Lemma step_implicit_restart (s : sched) :
  cur_cycle_steps s <= step_in_cycle s + 1 -> (0 <= cycle s)%Z ->
  step cfg None s =
    apply_lrs cfg
      (Sched (base_max_lr cfg * powerRZ (gamma cfg) (cycle s + 1))
             (IZR (int ((cur_cycle_steps s - IZR warmup) * mult))
              + IZR warmup)
             (cycle s + 1) (step_in_cycle s + 1 - cur_cycle_steps s)
             (last_epoch s + 1) (base_lrs s) (param_lrs s)).
Proof.
  intros Hle Hc. rewrite step_implicit_unfold. cbv zeta.
  destruct (Rge_dec _ _) as [_ | Hn]; [| lra].
  simpl. rewrite float_pow_nonneg by lia. reflexivity.
Qed.

(** An explicit call to a step of the first cycle. *)
Lemma step_explicit_first (t : Z) (s : sched) :
  (t < first)%Z -> (0 <= cycle s)%Z ->
  step cfg (Some t) s =
    apply_lrs cfg
      (Sched (base_max_lr cfg * powerRZ (gamma cfg) (cycle s))
             (IZR first) (cycle s) (IZR t) t (base_lrs s) (param_lrs s)).
Proof.
  intros Ht Hc.
  unfold step, advance_explicit, bind, attr, assign_attr, ret, lift.
  destruct (Z_ge_dec t first) as [Hge | _]; [lia |].
  simpl. rewrite float_pow_nonneg by assumption. reflexivity.
Qed.

(** An explicit call under [cycle_mult == 1.]. *)
Lemma step_explicit_unit (t : Z) (s : sched) :
  mult = 1 -> (0 < first <= t)%Z ->
  step cfg (Some t) s =
    apply_lrs cfg
      (Sched (base_max_lr cfg * powerRZ (gamma cfg) (t / first))
             (cur_cycle_steps s) (t / first) (IZR (t mod first)) t
             (base_lrs s) (param_lrs s)).
Proof.
  intros Hm Ht.
  unfold step, advance_explicit, bind, attr, assign_attr, ret, lift.
  destruct (Z_ge_dec t first) as [_ | Hn]; [| lia].
  destruct (Req_dec_T mult 1) as [_ | Hn]; [| contradiction].
  unfold floormod, floordiv.
  destruct (Z.eq_dec first 0) as [H0 | _]; [lia |].
  simpl. rewrite float_pow_nonneg by (apply Z.div_pos; lia). reflexivity.
Qed.

End StepFacts.

(** ** Positions: construction and runs of implicit calls *)

Section Placement.

Variable cfg : config.
Variable optimizer : list R.

Local Abbreviation first := (first_cycle_steps cfg).
Local Abbreviation warmup := (warmup_steps cfg).
Local Abbreviation mult := (cycle_mult cfg).

Lemma map_const_length {A B C : Type} (c : C) (l1 : list A) (l2 : list B) :
  length l1 = length l2 -> map (fun _ => c) l1 = map (fun _ => c) l2.
Proof.
  revert l2. induction l1 as [| a l1 IH]; intros [| b l2] H; simpl in *;
    try discriminate; [reflexivity |].
  f_equal. apply IH. lia.
Qed.

Lemma floors_length : length (floors cfg optimizer) = length optimizer.
Proof. unfold floors. apply length_map. Qed.

Lemma map_floors (f : R -> R) :
  map f (floors cfg optimizer) = map (fun _ => f (min_lr cfg)) optimizer.
Proof. unfold floors. now rewrite map_map. Qed.

(** [safe] and [lr_value] read the position only. *)
Lemma safe_ext (s s' : sched) :
  cycle s' = cycle s -> step_in_cycle s' = step_in_cycle s ->
  cur_cycle_steps s' = cur_cycle_steps s -> safe cfg s -> safe cfg s'.
Proof.
  unfold safe, degenerate. intros -> -> ->. exact (fun H => H).
Qed.

Lemma lr_value_ext (s s' : sched) (b : R) :
  cycle s' = cycle s -> step_in_cycle s' = step_in_cycle s ->
  cur_cycle_steps s' = cur_cycle_steps s -> max_lr s' = max_lr s ->
  lr_value cfg s' b = lr_value cfg s b.
Proof.
  unfold lr_value, degenerate. intros -> -> -> ->. reflexivity.
Qed.

(** Writing the rates keeps the position; it returns when no division is
    by zero, and the groups then hold the rate. *)
Lemma apply_lrs_placed (s : sched) (c : Z) (len pos : R) (e : Z) :
  placed cfg optimizer s c len pos e ->
  placed cfg optimizer (snd (apply_lrs cfg s)) c len pos e /\
  (safe cfg s ->
   fst (apply_lrs cfg s) = Ok tt /\
   synced cfg optimizer (snd (apply_lrs cfg s))).
Proof.
  intros (Hc & Hl & Hp & He & Hm & Hb & Hn).
  destruct (apply_lrs_fields cfg s) as (F1 & F2 & F3 & F4 & F5 & F6 & F7).
  split.
  - unfold placed. rewrite F1, F2, F3, F4, F5, F6, F7. tauto.
  - intros Hsafe.
    rewrite apply_lrs_safe; [| assumption | now rewrite Hb, floors_length].
    split; [reflexivity |]. unfold synced. simpl.
    rewrite Hb, map_floors. apply map_ext. intros _.
    now apply lr_value_ext.
Qed.

(** A state that is [safe] as soon as its position is inside a cycle longer
    than the warm-up. *)
Lemma safe_inside (s : sched) :
  (0 <= warmup)%Z -> 0 <= step_in_cycle s ->
  IZR warmup < cur_cycle_steps s -> safe cfg s.
Proof.
  intros Hw Hp Hl. unfold safe.
  destruct (Rlt_dec (step_in_cycle s) (IZR warmup)) as [Hlt | Hge].
  - right; right; left. split; [assumption | lra].
  - right; right; right. split; lra.
Qed.

Lemma step_stay_placed (s : sched) (c : Z) (len pos : R) (e : Z) :
  placed cfg optimizer s c len pos e ->
  (0 <= c)%Z -> (0 <= warmup)%Z -> IZR warmup < len ->
  0 <= pos + 1 < len ->
  exists s',
    step cfg None s = (Ok tt, s') /\
    placed cfg optimizer s' c len (pos + 1) (e + 1) /\
    synced cfg optimizer s'.
Proof.
  intros (Hc & Hl & Hp & He & Hm & Hb & Hn) Hc0 Hw Hwl Hpos.
  rewrite step_implicit_stay by (rewrite ?Hp, ?Hl, ?Hc; lra || lia).
  set (s1 := Sched _ _ _ _ _ _ _).
  assert (P1 : placed cfg optimizer s1 c len (pos + 1) (e + 1)).
  { unfold placed, s1; simpl. rewrite Hc, Hl, Hp, He. tauto. }
  destruct (apply_lrs_placed s1 _ _ _ _ P1) as [P2 S2].
  destruct S2 as [R2 Y2].
  { apply safe_inside; unfold s1; simpl; rewrite ?Hp, ?Hl; lra || lia. }
  exists (snd (apply_lrs cfg s1)). split; [| split; assumption].
  rewrite <- R2. now destruct (apply_lrs cfg s1).
Qed.

(** An implicit call that stays inside the warm-up, whatever the cycle
    length. *)
Lemma step_warmup_placed (s : sched) (c : Z) (len pos : R) (e : Z) :
  placed cfg optimizer s c len pos e ->
  (0 <= c)%Z -> 0 <= pos + 1 < len -> pos + 1 < IZR warmup ->
  exists s',
    step cfg None s = (Ok tt, s') /\
    placed cfg optimizer s' c len (pos + 1) (e + 1) /\
    synced cfg optimizer s'.
Proof.
  intros (Hc & Hl & Hp & He & Hm & Hb & Hn) Hc0 Hpos Hwarm.
  rewrite step_implicit_stay by (rewrite ?Hp, ?Hl, ?Hc; lra || lia).
  set (s1 := Sched _ _ _ _ _ _ _).
  assert (P1 : placed cfg optimizer s1 c len (pos + 1) (e + 1)).
  { unfold placed, s1; simpl. rewrite Hc, Hl, Hp, He. tauto. }
  destruct (apply_lrs_placed s1 _ _ _ _ P1) as [P2 S2].
  destruct S2 as [R2 Y2].
  { unfold safe, s1; simpl. rewrite Hp. right; right; left. split; lra. }
  exists (snd (apply_lrs cfg s1)). split; [| split; assumption].
  rewrite <- R2. now destruct (apply_lrs cfg s1).
Qed.

Lemma step_restart_placed (s : sched) (c : Z) (len pos : R) (e : Z) :
  placed cfg optimizer s c len pos e ->
  (0 <= c)%Z -> len <= pos + 1 ->
  let len' := IZR (int ((len - IZR warmup) * mult)) + IZR warmup in
  placed cfg optimizer (after cfg None s) (c + 1) len' (pos + 1 - len)
         (e + 1) /\
  (safe cfg (after cfg None s) ->
   step cfg None s = (Ok tt, after cfg None s) /\
   synced cfg optimizer (after cfg None s)).
Proof.
  intros (Hc & Hl & Hp & He & Hm & Hb & Hn) Hc0 Hpos len'.
  unfold after.
  rewrite step_implicit_restart by (rewrite ?Hp, ?Hl, ?Hc; lra || lia).
  set (s1 := Sched _ _ _ _ _ _ _).
  assert (P1 : placed cfg optimizer s1 (c + 1) len' (pos + 1 - len) (e + 1)).
  { unfold placed, s1, len'; simpl. rewrite Hc, Hl, Hp, He. tauto. }
  destruct (apply_lrs_placed s1 _ _ _ _ P1) as [P2 S2].
  split; [assumption |]. intros Hsafe.
  destruct (apply_lrs_fields cfg s1) as (F1 & F2 & F3 & F4 & _).
  destruct S2 as [R2 Y2].
  { revert Hsafe. apply safe_ext; congruence. }
  split; [| assumption].
  rewrite <- R2. now destruct (apply_lrs cfg s1).
Qed.

(** Construction of a fresh instance. *)
Lemma fresh_ok :
  (warmup < first)%Z -> (0 < first)%Z ->
  fresh cfg optimizer =
    Ok (Sched (base_max_lr cfg) (IZR first) 0 0 0
              (floors cfg optimizer) (floors cfg optimizer)).
Proof.
  intros Hw Hf. unfold fresh, init.
  destruct (Z_lt_dec warmup first) as [_ | Hn]; [| contradiction].
  assert (Hf' : 0 < IZR first) by now apply IZR_lt.
  assert (Hw' : IZR warmup < IZR first) by now apply IZR_lt.
  rewrite step_implicit_stay by (simpl; lra || lia). simpl.
  set (s1 := Sched _ _ _ _ _ _ _).
  assert (Hs : safe cfg s1).
  { unfold safe, s1; simpl.
    destruct (Rlt_dec (-1 + 1) (IZR warmup)) as [Hlt | Hge].
    - right; right; left. split; lra.
    - right; right; right. split; lra. }
  rewrite apply_lrs_safe by (assumption || reflexivity).
  unfold init_lr, set_base_lrs, set_param_lrs, floors; simpl.
  rewrite (map_const_length (min_lr cfg)
             (map (lr_value cfg s1) optimizer) optimizer)
    by apply length_map.
  do 2 f_equal; lra.
Qed.

Lemma fresh_placed (s0 : sched) :
  fresh cfg optimizer = Ok s0 -> (0 < first)%Z ->
  placed cfg optimizer s0 0 (IZR first) 0 0.
Proof.
  intros H Hf.
  assert (Hw : (warmup < first)%Z).
  { unfold fresh, init in H.
    destruct (Z_lt_dec warmup first); [assumption | discriminate]. }
  rewrite fresh_ok in H by assumption. inversion H; subst; clear H.
  unfold placed; simpl. repeat split; try apply floors_length. lra.
Qed.

Lemma run_app (l1 l2 : list (option Z)) (s : sched) :
  run cfg (l1 ++ l2) s =
    match run cfg l1 s with
    | (Ok _, s') => run cfg l2 s'
    | (Raise e, s') => (Raise e, s')
    end.
Proof.
  revert s. induction l1 as [| c l1 IH]; intros s; simpl; [reflexivity |].
  unfold bind. destruct (step cfg c s) as [[[] | e] s1]; [apply IH | reflexivity].
Qed.

Lemma repeat_snoc {A : Type} (a : A) (k : nat) :
  repeat a (S k) = repeat a k ++ [a].
Proof.
  induction k as [| k IH]; [reflexivity |].
  change (repeat a (S (S k))) with (a :: repeat a (S k)).
  rewrite IH at 1. reflexivity.
Qed.

(** [k] implicit calls that stay inside the cycle. *)
Lemma run_stay (k : nat) :
  forall (s : sched) (c : Z) (len pos : R) (e : Z),
    placed cfg optimizer s c len pos e ->
    (0 <= c)%Z -> (0 <= warmup)%Z -> IZR warmup < len ->
    0 <= pos -> pos + INR k < len ->
    exists s',
      run cfg (repeat None k) s = (Ok tt, s') /\
      placed cfg optimizer s' c len (pos + INR k) (e + Z.of_nat k) /\
      (synced cfg optimizer s -> synced cfg optimizer s') /\
      ((0 < k)%nat -> synced cfg optimizer s').
Proof.
  induction k as [| k IH]; intros s c len pos e P Hc Hw Hl Hp Hk.
  - exists s. simpl. rewrite Rplus_0_r, Z.add_0_r.
    split; [reflexivity |]. split; [exact P |].
    split; [exact (fun H => H) | intros H; inversion H].
  - rewrite S_INR in Hk. assert (Hk0 := pos_INR k).
    destruct (step_stay_placed s c len pos e P Hc Hw Hl)
      as (s1 & E1 & P1 & Y1); [lra |].
    destruct (IH s1 c len (pos + 1) (e + 1)%Z P1 Hc Hw Hl)
      as (s' & E' & P' & Y' & _); [lra | lra |].
    exists s'. split; [| split; [| split]].
    + simpl. unfold bind. rewrite E1. exact E'.
    + rewrite S_INR, Nat2Z.inj_succ.
      replace (pos + (INR k + 1)) with (pos + 1 + INR k) by lra.
      replace (e + Z.succ (Z.of_nat k))%Z with (e + 1 + Z.of_nat k)%Z by lia.
      exact P'.
    + intros _. now apply Y'.
    + intros _. now apply Y'.
Qed.

End Placement.

(** ** A full first cycle of implicit calls *)

Section FirstCycle.

Variable cfg : config.
Variable optimizer : list R.

Local Abbreviation first := (first_cycle_steps cfg).
Local Abbreviation warmup := (warmup_steps cfg).
Local Abbreviation mult := (cycle_mult cfg).

Lemma run_single (s : sched) :
  snd (run cfg [None] s) = after cfg None s /\
  fst (run cfg [None] s) = fst (step cfg None s).
Proof.
  unfold after. simpl. unfold bind, ret.
  destruct (step cfg None s) as [[[] | e] s']; split; reflexivity.
Qed.

Lemma INR_to_nat (z : Z) : (0 <= z)%Z -> INR (Z.to_nat z) = IZR z.
Proof. intros Hz. rewrite INR_IZR_INZ, Z2Nat.id by assumption. reflexivity. Qed.

(** C4.  For every valid configuration, [first_cycle_steps] implicit calls
    on a fresh instance (whose current cycle length is
    [first_cycle_steps]) bring [step_in_cycle] back to 0 with [cycle] one
    higher, [max_lr] multiplied by [gamma], and the cycle length set to
    [floor((old length - warmup_steps) * cycle_mult) + warmup_steps]. *)
Theorem implicit_full_cycle_restarts :
  (0 <= warmup < first)%Z -> 0 < mult ->
  exists s0,
    fresh cfg optimizer = Ok s0 /\
    step_in_cycle s0 = 0 /\ cur_cycle_steps s0 = IZR first /\
    let s' := snd (run cfg (repeat None (Z.to_nat first)) s0) in
    step_in_cycle s' = 0 /\
    cycle s' = (cycle s0 + 1)%Z /\
    max_lr s' = max_lr s0 * gamma cfg /\
    cur_cycle_steps s' =
      IZR (Zfloor ((cur_cycle_steps s0 - IZR warmup) * mult) + warmup).
Proof.
  intros [Hw0 Hw] Hm.
  assert (Hf : (0 < first)%Z) by lia.
  assert (Hw' : IZR warmup < IZR first) by now apply IZR_lt.
  assert (Hw0' : 0 <= IZR warmup) by now apply IZR_le.
  eexists. split; [apply fresh_ok; assumption |]. simpl.
  split; [reflexivity |]. split; [reflexivity |].
  set (s0 := Sched _ _ _ _ _ _ _).
  assert (P0 : placed cfg optimizer s0 0 (IZR first) 0 0).
  { apply fresh_placed; [apply fresh_ok |]; assumption. }
  replace (Z.to_nat first) with (S (Z.to_nat (first - 1))) by lia.
  rewrite repeat_snoc, run_app.
  assert (Hk : INR (Z.to_nat (first - 1)) = IZR first - 1).
  { rewrite INR_to_nat by lia. now rewrite minus_IZR. }
  destruct (run_stay cfg optimizer (Z.to_nat (first - 1)) s0 0 (IZR first) 0 0)
    as (s1 & E1 & P1 & _); try assumption; try lia; try lra.
  rewrite E1.
  destruct (run_single s1) as [-> _].
  destruct (step_restart_placed cfg optimizer s1 _ _ _ _ P1) as [P2 _];
    [lia | lra |].
  destruct P2 as (Hc & Hl & Hp & _ & Hx & _).
  rewrite Hc, Hl, Hp, Hx, Hk. repeat split.
  - lra.
  - simpl. lra.
  - rewrite int_floor, plus_IZR; [reflexivity |].
    apply Rmult_le_pos; lra.
Qed.

(** Under [cycle_mult == 1.] the implicit calls count modulo
    [first_cycle_steps]. *)
Lemma implicit_unit (k : nat) (s0 : sched) :
  mult = 1 -> (0 <= warmup < first)%Z ->
  fresh cfg optimizer = Ok s0 ->
  exists s,
    run cfg (repeat None k) s0 = (Ok tt, s) /\
    placed cfg optimizer s (Z.of_nat k / first) (IZR first)
           (IZR (Z.of_nat k mod first)) (Z.of_nat k) /\
    ((0 < k)%nat -> synced cfg optimizer s).
Proof.
  intros Hm [Hw0 Hw] Hs0.
  assert (Hf : (0 < first)%Z) by lia.
  assert (Hw' : IZR warmup < IZR first) by now apply IZR_lt.
  induction k as [| k IH].
  - exists s0. split; [reflexivity |]. split; [| intros H; inversion H].
    simpl. rewrite Z.div_0_l, Z.mod_0_l by lia.
    now apply fresh_placed.
  - destruct IH as (s & E & P & _).
    rewrite repeat_snoc, run_app, E.
    set (n := Z.of_nat k) in *.
    assert (Hn : (0 <= n)%Z) by apply Nat2Z.is_nonneg.
    assert (Hq : (0 <= n / first)%Z) by (apply Z.div_pos; lia).
    assert (Hr := Z.mod_pos_bound n first Hf).
    assert (Hd := Z.div_mod n first ltac:(lia)).
    rewrite Nat2Z.inj_succ. fold n.
    destruct (Z_lt_dec (n mod first + 1) first) as [Hin | Hout].
    + assert (Dq : (Z.succ n / first = n / first)%Z).
      { symmetry. apply Z.div_unique_pos with (n mod first + 1)%Z; lia. }
      assert (Dr : (Z.succ n mod first = n mod first + 1)%Z).
      { symmetry. apply Z.mod_unique_pos with (n / first)%Z; lia. }
      destruct (step_stay_placed cfg optimizer s _ _ _ _ P)
        as (s' & E' & P' & Y'); try assumption; try lia.
      { split.
        - apply Rplus_le_le_0_compat; [apply IZR_le; lia | lra].
        - rewrite <- (plus_IZR _ 1). apply IZR_lt. lia. }
      exists s'. split; [| split; [| intros _; exact Y']].
      * simpl. unfold bind, ret. now rewrite E'.
      * rewrite Dq, Dr, plus_IZR. exact P'.
    + assert (Dq : (Z.succ n / first = n / first + 1)%Z).
      { symmetry. apply Z.div_unique_pos with 0%Z; lia. }
      assert (Dr : (Z.succ n mod first = 0)%Z).
      { symmetry. apply Z.mod_unique_pos with (n / first + 1)%Z; lia. }
      assert (Hlast : IZR (n mod first) + 1 = IZR first).
      { rewrite <- (plus_IZR _ 1). f_equal. lia. }
      destruct (step_restart_placed cfg optimizer s _ _ _ _ P) as [P' S'];
        [assumption | lra |].
      assert (Hlen : IZR (int ((IZR first - IZR warmup) * mult)) + IZR warmup
                     = IZR first).
      { rewrite Hm, Rmult_1_r, <- minus_IZR, int_IZR, minus_IZR. lra. }
      rewrite Hlen in P'.
      replace (IZR (n mod first) + 1 - IZR first) with 0 in P' by lra.
      destruct S' as [E' Y'].
      { destruct P' as (_ & Hl & Hp & _).
        apply safe_inside; rewrite ?Hl, ?Hp; try lra; lia. }
      exists (after cfg None s). split; [| split; [| intros _; exact Y']].
      * simpl. unfold bind, ret. now rewrite E'.
      * rewrite Dq, Dr. exact P'.
Qed.

End FirstCycle.

(** ** The concrete scenario *)

Section Scenario.

Variable optimizer : list R.

Lemma get_lr_placed (cfg : config) (s : sched) (c : Z) (len pos : R) (e : Z) :
  placed cfg optimizer s c len pos e -> safe cfg s ->
  get_lr cfg s = Ok (map (fun _ => lr_value cfg s (min_lr cfg)) optimizer).
Proof.
  intros (_ & _ & _ & _ & _ & Hb & _) Hs.
  rewrite get_lr_value by assumption. rewrite Hb. now rewrite map_floors.
Qed.

(** The rate of the scenario at a position of a cycle of 10 steps. *)
Lemma scenario_rate (s : sched) (c : Z) (pos : Z) (e : Z) :
  placed scenario optimizer s c 10 (IZR pos) e -> (0 <= pos < 10)%Z ->
  safe scenario s /\
  lr_value scenario s 0 =
    if (pos <? 2)%Z then IZR pos / 20
    else (1 + cos (PI * (IZR pos - 2) / 8)) / 20.
Proof.
  intros (Hc & Hl & Hp & He & Hx & Hb & Hn) [Hp0 Hp1].
  assert (H0 : 0 <= IZR pos) by now apply IZR_le.
  split.
  { apply safe_inside; rewrite ?Hl, ?Hp; simpl; try lra; lia. }
  assert (Hg : max_lr s = 0.1).
  { rewrite Hx. simpl base_max_lr. simpl gamma. rewrite powerRZ_R1. lra. }
  unfold lr_value, degenerate. rewrite Hl, Hp, Hg. simpl cycle_mult.
  simpl warmup_steps.
  destruct (Req_dec_T 1 0) as [H10 | _]; [lra |].
  rewrite andb_false_r.
  destruct (Req_dec_T (IZR pos) (-1)) as [Hm | _]; [lra |].
  destruct (Z.ltb_spec pos 2) as [Hlt | Hge].
  - apply IZR_lt in Hlt.
    destruct (Rlt_dec (IZR pos) 2) as [_ | Hn']; [lra | contradiction].
  - apply IZR_le in Hge.
    destruct (Rlt_dec (IZR pos) 2) as [Hn' | _]; [lra |].
    replace (10 - 2) with 8 by lra. lra.
Qed.

Lemma scenario_stepped (k : nat) (s0 : sched) :
  fresh scenario optimizer = Ok s0 ->
  (0 < k)%nat ->
  stepped scenario optimizer s0 k (Z.of_nat k / 10)
    (let pos := (Z.of_nat k mod 10)%Z in
     if (pos <? 2)%Z then IZR pos / 20
     else (1 + cos (PI * (IZR pos - 2) / 8)) / 20).
Proof.
  intros Hs0 Hk.
  destruct (implicit_unit scenario optimizer k s0) as (s & E & P & Y);
    [reflexivity | simpl; lia | assumption |].
  specialize (Y Hk). simpl first_cycle_steps in P.
  destruct (scenario_rate s _ _ _ P) as [Hsafe Hv].
  { apply Z.mod_pos_bound. lia. }
  exists s. split; [exact E |].
  split; [apply P |]. split; [apply P |]. cbv zeta. rewrite <- Hv. split.
  - exact Y.
  - now apply (get_lr_placed scenario s _ _ _ _ P).
Qed.

Ltac eval_position :=
  cbv zeta; simpl Z.of_nat;
  repeat match goal with
    | |- context [Z.modulo ?a ?b] =>
        let v := eval vm_compute in (Z.modulo a b) in
        change (Z.modulo a b) with v
    end;
  simpl.

Lemma stepped_rate (cfg : config) (s0 : sched) (k : nat) (c : Z) (r r' : R) :
  r = r' -> stepped cfg optimizer s0 k c r -> stepped cfg optimizer s0 k c r'.
Proof. intros ->. exact (fun H => H). Qed.

(** C3.  With [first_cycle_steps=10, warmup_steps=2, max_lr=0.1,
    min_lr=0.0, cycle_mult=1.0, gamma=1.0], stepping implicitly from
    construction: at step 0 (right after construction) the rate is 0.0, at
    step 1 it is 0.05, at step 2 it is 0.1, at step 6 it is 0.05, and at
    step 10 the rate is 0.0 with [cycle] equal to 1. *)
Theorem scenario_rates :
  exists s0,
    fresh scenario optimizer = Ok s0 /\
    stepped scenario optimizer s0 0 0 0 /\
    stepped scenario optimizer s0 1 0 0.05 /\
    stepped scenario optimizer s0 2 0 0.1 /\
    stepped scenario optimizer s0 6 0 0.05 /\
    stepped scenario optimizer s0 10 1 0.
Proof.
  assert (F := fresh_ok scenario optimizer).
  eexists. split; [apply F; simpl; lia |].
  set (s0 := Sched _ _ _ _ _ _ _).
  assert (F0 : fresh scenario optimizer = Ok s0) by (apply F; simpl; lia).
  assert (P0 := fresh_placed scenario optimizer s0 F0 ltac:(simpl; lia)).
  split; [| split; [| split; [| split]]].
  - exists s0. split; [reflexivity |]. split; [reflexivity |].
    split; [reflexivity |]. split; [reflexivity |].
    destruct (scenario_rate s0 0 0 0 P0 ltac:(lia)) as [Hsafe Hv].
    rewrite (get_lr_placed scenario s0 _ _ _ _ P0 Hsafe).
    simpl min_lr. rewrite Hv. simpl.
    replace (0 / 20) with 0 by lra. reflexivity.
  - eapply stepped_rate; [| exact (scenario_stepped 1 s0 F0 ltac:(lia))].
    eval_position. lra.
  - eapply stepped_rate; [| exact (scenario_stepped 2 s0 F0 ltac:(lia))].
    eval_position. replace (PI * (2 - 2) / 8) with 0 by lra.
    rewrite cos_0. lra.
  - eapply stepped_rate; [| exact (scenario_stepped 6 s0 F0 ltac:(lia))].
    eval_position. replace (PI * (6 - 2) / 8) with (PI / 2) by lra.
    rewrite cos_PI2. lra.
  - eapply stepped_rate; [| exact (scenario_stepped 10 s0 F0 ltac:(lia))].
    eval_position. lra.
Qed.

End Scenario.

(** ** The rate query against the specification's formula *)

Section RateFormula.

Variable cfg : config.

Local Abbreviation warmup := (warmup_steps cfg).

(** C2.  In a started state ([0 <= step_in_cycle]) outside the degenerate
    guard, with the base rates at the floor [min_lr] as [init_lr] leaves
    them, [get_lr] returns for every group the rate of the specification:
    the linear interpolation from the floor to [max_lr] with fraction
    [step_in_cycle / warmup_steps] when [step_in_cycle < warmup_steps],
    otherwise the cosine value over [cur_cycle_steps - warmup_steps],
    wherever that quotient is defined. *)
Theorem get_lr_formula (groups : list R) (s : sched) :
  base_lrs s = floors cfg groups ->
  0 <= step_in_cycle s ->
  degenerate cfg s = false ->
  step_in_cycle s < IZR warmup \/ cur_cycle_steps s <> IZR warmup ->
  get_lr cfg s =
    Ok (map (fun _ => spec_rate (min_lr cfg) (max_lr s) (step_in_cycle s)
                                (IZR warmup) (cur_cycle_steps s))
            groups).
Proof.
  intros Hb Hp Hd Hq.
  assert (Hsafe : safe cfg s).
  { unfold safe.
    destruct (Rlt_dec (step_in_cycle s) (IZR warmup)) as [Hlt | Hge].
    - right; right; left. split; [assumption | lra].
    - right; right; right. split; [lra |]. destruct Hq; [lra | assumption]. }
  rewrite get_lr_value by assumption.
  rewrite Hb, map_floors. f_equal. apply map_ext. intros _.
  unfold lr_value, spec_rate. rewrite Hd.
  destruct (Req_dec_T (step_in_cycle s) (-1)) as [Hm | _]; [lra |].
  destruct (Rlt_dec (step_in_cycle s) (IZR warmup)) as [_ | _].
  - unfold Rdiv. ring.
  - reflexivity.
Qed.

End RateFormula.

(** ** Facts that hold for every call *)

Section EveryCall.

Variable cfg : config.

Local Abbreviation first := (first_cycle_steps cfg).
Local Abbreviation warmup := (warmup_steps cfg).
Local Abbreviation mult := (cycle_mult cfg).

Ltac lay_out_step :=
  unfold after, step, advance_implicit, advance_explicit, apply_lrs,
    bind, attr, assign_attr, ret, lift;
  simpl.

Ltac split_cases :=
  repeat match goal with
    | |- context [match ?x with _ => _ end] =>
        lazymatch x with
        | context [match _ with _ => _ end] => fail
        | _ => destruct x; simpl
        end
    end.

(** What a call fixes in [last_epoch]: nothing when it raises before the
    assignment, the step count of the call otherwise. *)
Lemma after_last_epoch (epoch : option Z) (s : sched) :
  last_epoch (after cfg epoch s) = last_epoch s \/
  last_epoch (after cfg epoch s) =
    match epoch with
    | None => (last_epoch s + 1)%Z
    | Some t => t
    end.
Proof.
  destruct epoch as [t |]; lay_out_step; split_cases; auto.
Qed.

Lemma after_base_lrs (epoch : option Z) (s : sched) :
  base_lrs (after cfg epoch s) = base_lrs s /\
  length (param_lrs (after cfg epoch s)) = length (param_lrs s).
Proof.
  destruct epoch as [t |]; lay_out_step; split_cases; auto using assign_length.
Qed.

Lemma after_not_behind (epoch : option Z) (s : sched) :
  target_not_behind s epoch ->
  (last_epoch s <= last_epoch (after cfg epoch s))%Z.
Proof.
  intros Ht. destruct (after_last_epoch epoch s) as [-> | ->]; [lia |].
  destruct epoch as [t |]; [now apply Ht | lia].
Qed.

(** A call that returns has assigned [last_epoch]. *)
Lemma step_sets_last_epoch (epoch : option Z) (s s' : sched) :
  step cfg epoch s = (Ok tt, s') ->
  last_epoch s' =
    match epoch with
    | None => (last_epoch s + 1)%Z
    | Some t => t
    end.
Proof.
  intros H. assert (Hs : last_epoch (snd (step cfg epoch s)) = last_epoch s')
    by now rewrite H.
  assert (Hf : fst (step cfg epoch s) = Ok tt) by now rewrite H.
  rewrite <- Hs. clear H Hs. revert Hf.
  destruct epoch as [t |]; lay_out_step; split_cases;
    intros Hf; try discriminate Hf; reflexivity.
Qed.

(** C8 (amended).  Along every sequence of calls whose explicit targets are
    not behind the steps counted when they are made, [last_epoch] never
    decreases.  The next call, whatever its argument, assigns [last_epoch]
    when it returns: one more than before for an implicit call, the target
    for an explicit call; when it raises, it has assigned [last_epoch] in
    that way or left it as it was. *)
Theorem last_epoch_monotone (s s' : sched) :
  advances cfg target_not_behind s s' ->
  (last_epoch s <= last_epoch s')%Z /\
  (forall epoch s'',
     step cfg epoch s' = (Ok tt, s'') ->
     last_epoch s'' =
       match epoch with
       | None => (last_epoch s' + 1)%Z
       | Some t => t
       end) /\
  (forall epoch e s'',
     step cfg epoch s' = (Raise e, s'') ->
     last_epoch s'' = last_epoch s' \/
     last_epoch s'' =
       match epoch with
       | None => (last_epoch s' + 1)%Z
       | Some t => t
       end).
Proof.
  intros Hadv. split; [| split].
  - induction Hadv as [s | s s1 epoch _ IH Ht]; [lia |].
    apply Z.le_trans with (last_epoch s1); [exact IH |].
    now apply after_not_behind.
  - intros epoch s'' Hs. now apply step_sets_last_epoch.
  - intros epoch e s'' Hs.
    assert (Ha : after cfg epoch s' = s'') by (unfold after; now rewrite Hs).
    rewrite <- Ha. apply after_last_epoch.
Qed.

(** An implicit call leaves an integer in [cur_cycle_steps]. *)
Lemma implicit_integral (s : sched) :
  integral (cur_cycle_steps s) ->
  integral (cur_cycle_steps (after cfg None s)).
Proof.
  intros [z Hz]. lay_out_step. split_cases;
    try (exists z; assumption);
    eexists; rewrite <- plus_IZR; reflexivity.
Qed.

Lemma step_returned (epoch : option Z) (s s' : sched) :
  step cfg epoch s = (Ok tt, s') -> after cfg epoch s = s'.
Proof. unfold after. now intros ->. Qed.

Lemma for_each_raise {A B : Type} (f : A -> result B) (l : list A) (e : exn) :
  for_each f l = Raise e -> exists a, In a l /\ f a = Raise e.
Proof.
  induction l as [| a l IH]; simpl; [discriminate |].
  destruct (f a) as [b | e'] eqn:Ea; simpl.
  - destruct (for_each f l) as [bs | e'']; simpl; [discriminate |].
    intros H. destruct IH as (a' & Hin & Ha'); [assumption |].
    exists a'. split; [now right | assumption].
  - intros H. exists a. split; [now left | congruence].
Qed.

Lemma truediv_raise (a b : R) (e : exn) :
  truediv a b = Raise e -> e = ZeroDivisionError.
Proof.
  unfold truediv. destruct (Req_dec_T b 0); [congruence | discriminate].
Qed.

(** The rate query can only raise for a division. *)
Lemma get_lr_raise (s : sched) (e : exn) :
  get_lr cfg s = Raise e -> e = ZeroDivisionError.
Proof.
  unfold get_lr.
  destruct (degenerate cfg s); [discriminate |].
  destruct (Req_dec_T _ _); [discriminate |].
  destruct (Rlt_dec _ _); intros H; apply for_each_raise in H;
    destruct H as (b & _ & Hb); unfold warmup_lr, cosine_lr in Hb;
    destruct (truediv _ _) eqn:Ed; simpl in Hb; try discriminate;
    inversion Hb; subst; now apply truediv_raise in Ed.
Qed.

End EveryCall.

(** ** The invariant of the data model *)

Section Invariant.

Variable cfg : config.
Variable optimizer : list R.

Local Abbreviation first := (first_cycle_steps cfg).
Local Abbreviation warmup := (warmup_steps cfg).
Local Abbreviation mult := (cycle_mult cfg).

Hypothesis warmup_valid : (0 <= warmup < first)%Z.
Hypothesis mult_grows : 1 <= mult.

Lemma steady_fresh (s0 : sched) :
  fresh cfg optimizer = Ok s0 -> steady cfg optimizer s0.
Proof.
  intros H. exists 0%Z, first, 0, 0%Z.
  split; [apply fresh_placed; [assumption | lia] |].
  repeat split; try lia; try lra. apply IZR_lt. lia.
Qed.

Lemma steady_implicit (s : sched) :
  steady cfg optimizer s -> steady cfg optimizer (after cfg None s).
Proof.
  intros (c & z & pos & e & P & Hc & Hz & Hpos & Hm).
  assert (Hz' : IZR warmup < IZR z) by now apply IZR_lt.
  assert (Hw' : 0 <= IZR warmup) by (apply IZR_le; lia).
  destruct (Rlt_dec (pos + 1) (IZR z)) as [Hin | Hout].
  - destruct (step_stay_placed cfg optimizer s _ _ _ _ P)
      as (s' & E & P' & _); try assumption; try lia; try lra.
    rewrite (step_returned cfg _ _ _ E).
    exists c, z, (pos + 1), (e + 1)%Z. split; [exact P' |].
    repeat split; try assumption; lra.
  - destruct (step_restart_placed cfg optimizer s _ _ _ _ P) as [P' _];
      [assumption | lra |].
    set (z' := int ((IZR z - IZR warmup) * mult)) in *.
    assert (Hgrow : (z - warmup <= z')%Z).
    { apply int_growth. rewrite minus_IZR. split; [lra |]. nra. }
    rewrite <- plus_IZR in P'.
    exists (c + 1)%Z, (z' + warmup)%Z, (pos + 1 - IZR z), (e + 1)%Z.
    split; [exact P' |].
    assert (Hone : 1 <= IZR z) by (apply IZR_le; lia).
    assert (Hlen : IZR z <= IZR (z' + warmup)) by (apply IZR_le; lia).
    repeat split; try lia; try lra.
    intros H1. unfold z'. rewrite H1, Rmult_1_r, <- minus_IZR, int_IZR.
    specialize (Hm H1). lia.
Qed.

Lemma steady_explicit (t : Z) (s : sched) :
  mult = 1 -> (0 <= t)%Z ->
  steady cfg optimizer s -> steady cfg optimizer (after cfg (Some t) s).
Proof.
  intros H1 Ht (c & z & pos & e & P & Hc & Hz & Hpos & Hm).
  specialize (Hm H1). subst z.
  destruct P as (Pc & Pl & Pp & Pe & Px & Pb & Pn).
  unfold after.
  destruct (Z_lt_dec t first) as [Hlt | Hge].
  - rewrite step_explicit_first by (rewrite ?Pc; lia).
    set (s1 := Sched _ _ _ _ _ _ _).
    assert (P1 : placed cfg optimizer s1 c (IZR first) (IZR t) t).
    { unfold placed, s1; simpl. rewrite Pc. tauto. }
    destruct (apply_lrs_placed cfg optimizer s1 _ _ _ _ P1) as [P2 _].
    exists c, first, (IZR t), t. split; [exact P2 |].
    repeat split; try lia; try tauto; apply IZR_le || apply IZR_lt; lia.
  - rewrite step_explicit_unit by (assumption || lia).
    set (s1 := Sched _ _ _ _ _ _ _).
    assert (P1 : placed cfg optimizer s1 (t / first) (IZR first)
                        (IZR (t mod first)) t).
    { unfold placed, s1; simpl. rewrite Pl. tauto. }
    destruct (apply_lrs_placed cfg optimizer s1 _ _ _ _ P1) as [P2 _].
    assert (Hr := Z.mod_pos_bound t first ltac:(lia)).
    exists (t / first)%Z, first, (IZR (t mod first)), t.
    split; [exact P2 |].
    repeat split; try lia; try tauto;
      try (apply IZR_le || apply IZR_lt; lia).
    apply Z.div_pos; lia.
Qed.

Lemma steady_reachable (s : sched) :
  reachable cfg (consistent_call cfg) optimizer s ->
  steady cfg optimizer s.
Proof.
  intros (s0 & H0 & Hadv).
  induction Hadv as [s0 | s0 s1 epoch _ IH Hcall].
  - now apply steady_fresh.
  - specialize (IH H0).
    destruct Hcall as [-> | (H1 & t & -> & Ht)].
    + now apply steady_implicit.
    + now apply steady_explicit.
Qed.

End Invariant.

(** C5 (amended).  For a valid configuration whose [cycle_mult] is at least 1,
    in every state reached from a fresh instance by implicit calls, and
    under [cycle_mult == 1.] also by explicit calls to step counts:
    [0 <= step_in_cycle < cur_cycle_steps],
    [max_lr = base_max_lr * gamma ** cycle] and
    [warmup_steps < cur_cycle_steps]. *)
Theorem invariant_reachable (cfg : config) (optimizer : list R) (s : sched) :
  (0 <= warmup_steps cfg < first_cycle_steps cfg)%Z ->
  1 <= cycle_mult cfg ->
  reachable cfg (consistent_call cfg) optimizer s ->
  cycle_invariant cfg s.
Proof.
  intros Hw Hm Hr.
  destruct (steady_reachable cfg optimizer Hw Hm s Hr)
    as (c & z & pos & e & P & Hc & Hz & Hpos & _).
  destruct P as (Pc & Pl & Pp & Pe & Px & Pb & Pn).
  unfold cycle_invariant. rewrite Pl, Pp, Px, Pc.
  repeat split; try lra. apply IZR_lt. lia.
Qed.

(** ** The degenerate-cycle guard *)

Section Degenerate.

Variable cfg : config.
Variable optimizer : list R.

Local Abbreviation first := (first_cycle_steps cfg).
Local Abbreviation warmup := (warmup_steps cfg).
Local Abbreviation mult := (cycle_mult cfg).

Hypothesis mult_zero : mult = 0.
Hypothesis warmup_valid : (0 <= warmup < first)%Z.

(** Under [cycle_mult == 0] an explicit call beyond the first cycle ends
    in [math.log] before anything is assigned. *)
Lemma step_explicit_zero (t : Z) (s : sched) :
  (first <= t)%Z -> step cfg (Some t) s = (Raise ValueError, s).
Proof.
  intros Ht.
  unfold step, advance_explicit, bind, attr, assign_attr, ret, lift.
  destruct (Z_ge_dec t first) as [_ | Hn]; [| lia].
  destruct (Req_dec_T mult 1) as [H1 | _]; [lra |].
  rewrite truediv_ok by (apply not_0_IZR; lia).
  unfold math_log. rewrite mult_zero.
  destruct (Rle_dec _ 0) as [_ | _]; [reflexivity |].
  destruct (Rle_dec 0 0) as [_ | Hn]; [reflexivity | lra].
Qed.

Lemma first_cycle_kept_after (epoch : option Z) (s : sched) :
  first_cycle_kept cfg optimizer s ->
  first_cycle_kept cfg optimizer (after cfg epoch s).
Proof.
  intros (Hc & Hl & Hb & Hn). unfold after.
  destruct epoch as [t |].
  - destruct (Z_lt_dec t first) as [Hlt | Hge].
    + rewrite step_explicit_first by assumption.
      set (s1 := Sched _ _ _ _ _ _ _).
      destruct (apply_lrs_fields cfg s1) as (_ & F2 & F3 & _ & _ & F6 & F7).
      unfold first_cycle_kept. rewrite F2, F3, F6, F7. simpl. tauto.
    + rewrite step_explicit_zero by lia. simpl. unfold first_cycle_kept. tauto.
  - destruct (Rlt_dec (step_in_cycle s + 1) (cur_cycle_steps s)) as [Hin | Hout].
    + rewrite step_implicit_stay by assumption.
      set (s1 := Sched _ _ _ _ _ _ _).
      destruct (apply_lrs_fields cfg s1) as (_ & F2 & F3 & _ & _ & F6 & F7).
      unfold first_cycle_kept. rewrite F2, F3, F6, F7. simpl. tauto.
    + rewrite step_implicit_restart by (assumption || lra).
      set (s1 := Sched _ _ _ _ _ _ _).
      destruct (apply_lrs_fields cfg s1) as (_ & F2 & F3 & _ & _ & F6 & F7).
      unfold first_cycle_kept. rewrite F2, F3, F6, F7. simpl.
      repeat split; try assumption; lia.
Qed.

Lemma started_after (epoch : option Z) (s : sched) :
  first_cycle_kept cfg optimizer s -> step_count_call s epoch ->
  (cycle s = 0%Z -> 0 <= step_in_cycle s) ->
  cycle (after cfg epoch s) = 0%Z -> 0 <= step_in_cycle (after cfg epoch s).
Proof.
  intros (Hc & Hl & Hb & Hn) Hcall Hs. unfold after.
  destruct epoch as [t |].
  - destruct (Z_lt_dec t first) as [Hlt | Hge].
    + rewrite step_explicit_first by assumption.
      set (s1 := Sched _ _ _ _ _ _ _).
      destruct (apply_lrs_fields cfg s1) as (_ & _ & F3 & F4 & _).
      rewrite F3, F4. simpl. intros _. apply IZR_le. now apply Hcall.
    + rewrite step_explicit_zero by lia. exact Hs.
  - destruct (Rlt_dec (step_in_cycle s + 1) (cur_cycle_steps s)) as [Hin | Hout].
    + rewrite step_implicit_stay by assumption.
      set (s1 := Sched _ _ _ _ _ _ _).
      destruct (apply_lrs_fields cfg s1) as (_ & _ & F3 & F4 & _).
      rewrite F3, F4. simpl. intros H0. specialize (Hs H0). lra.
    + rewrite step_implicit_restart by (assumption || lra).
      set (s1 := Sched _ _ _ _ _ _ _).
      destruct (apply_lrs_fields cfg s1) as (_ & _ & F3 & F4 & _).
      rewrite F3. simpl. lia.
Qed.

Lemma first_cycle_kept_fresh (s0 : sched) :
  fresh cfg optimizer = Ok s0 ->
  first_cycle_kept cfg optimizer s0 /\ step_in_cycle s0 = 0.
Proof.
  intros H. rewrite fresh_ok in H by lia. inversion H; subst; clear H.
  unfold first_cycle_kept; simpl.
  repeat split; try lia; try reflexivity. apply floors_length.
Qed.

Lemma first_cycle_kept_reachable (allowed : sched -> option Z -> Prop)
      (s : sched) :
  reachable cfg allowed optimizer s -> first_cycle_kept cfg optimizer s.
Proof.
  intros (s0 & H0 & Hadv).
  induction Hadv as [s0 | s0 s1 epoch _ IH _].
  - now apply first_cycle_kept_fresh.
  - apply first_cycle_kept_after. now apply IH.
Qed.

Lemma started_reachable (s : sched) :
  reachable cfg step_count_call optimizer s ->
  cycle s = 0%Z -> 0 <= step_in_cycle s.
Proof.
  intros (s0 & H0 & Hadv).
  induction Hadv as [s0 | s0 s1 epoch Hadv IH Hcall].
  - destruct (first_cycle_kept_fresh s0 H0) as [_ ->]. intros _. lra.
  - apply started_after; [| assumption | now apply IH].
    apply (first_cycle_kept_reachable step_count_call).
    now exists s0.
Qed.

(** In the first cycle the only division that can be by zero is the one by
    [warmup_steps], at a negative position. *)
Lemma first_cycle_raise (s : sched) (e : exn) :
  first_cycle_kept cfg optimizer s -> cycle s = 0%Z ->
  get_lr cfg s = Raise e ->
  e = ZeroDivisionError /\ warmup = 0%Z /\ step_in_cycle s < 0.
Proof.
  intros (_ & Hl & _) Hc He.
  assert (Hw : IZR warmup < IZR first) by (apply IZR_lt; lia).
  split; [now apply (get_lr_raise cfg s) |].
  assert (Hunsafe : ~ safe cfg s).
  { intros Hs. rewrite get_lr_value in He by assumption. discriminate. }
  unfold safe in Hunsafe. rewrite (Hl Hc) in Hunsafe.
  destruct (Rlt_dec (step_in_cycle s) (IZR warmup)) as [Hlt | Hge].
  - destruct (Z.eq_dec warmup 0) as [H0 | Hn0].
    + split; [exact H0 |]. now rewrite H0 in Hlt.
    + exfalso. apply Hunsafe. right; right; left.
      split; [exact Hlt |]. now apply not_0_IZR.
  - exfalso. apply Hunsafe. right; right; right. split; lra.
Qed.

(** C9 (amended).  With [cycle_mult == 0] and a valid warm-up, in every state
    reached from a fresh instance by any calls: when [cycle > 0] the guard
    makes [get_lr] return the floor rate for every group, and otherwise the
    divisor [cur_cycle_steps - warmup_steps] is not zero.  When the explicit
    targets are step counts, [get_lr] raises nothing at all; otherwise it
    can only raise [ZeroDivisionError], in cycle 0, at a negative position
    and with [warmup_steps = 0]: the division by [warmup_steps]. *)
Theorem degenerate_guard (s : sched) :
  reachable cfg any_call optimizer s ->
  ((0 < cycle s)%Z -> get_lr cfg s = Ok (floors cfg optimizer)) /\
  ((cycle s <= 0)%Z -> cur_cycle_steps s - IZR warmup <> 0) /\
  (reachable cfg step_count_call optimizer s ->
   exists lrs, get_lr cfg s = Ok lrs) /\
  (forall e, get_lr cfg s = Raise e ->
   e = ZeroDivisionError /\ cycle s = 0%Z /\ warmup = 0%Z /\
   step_in_cycle s < 0).
Proof.
  intros Hr.
  assert (Hkept := first_cycle_kept_reachable any_call s Hr).
  destruct Hkept as (Hc & Hl & Hb & Hn).
  assert (Hw : IZR warmup < IZR first) by (apply IZR_lt; lia).
  assert (Hguard : (0 < cycle s)%Z -> get_lr cfg s = Ok (floors cfg optimizer)).
  { intros Hpos. unfold get_lr, degenerate.
    destruct (Z.ltb_spec 0 (cycle s)) as [_ | Hn']; [| lia].
    destruct (Req_dec_T mult 0) as [_ | Hn']; [| contradiction].
    simpl. now rewrite Hb. }
  split; [exact Hguard |]. split; [| split].
  - intros Hle. rewrite Hl by lia. lra.
  - intros Hr'. destruct (Z_lt_dec 0 (cycle s)) as [Hpos | Hz].
    + eexists. now apply Hguard.
    + eexists. apply get_lr_value. apply safe_inside.
      * lia.
      * apply (started_reachable s Hr'). lia.
      * rewrite Hl by lia. exact Hw.
  - intros e He. destruct (Z_lt_dec 0 (cycle s)) as [Hpos | Hz].
    + rewrite Hguard in He by assumption. discriminate.
    + assert (H0 : cycle s = 0%Z) by lia.
      destruct (first_cycle_raise s e) as (E1 & E2 & E3); try assumption.
      * unfold first_cycle_kept. tauto.
      * tauto.
Qed.

End Degenerate.

(** ** Construction *)

Section Construction.

Variable cfg : config.
Variable optimizer : list R.

Local Abbreviation first := (first_cycle_steps cfg).
Local Abbreviation warmup := (warmup_steps cfg).
Local Abbreviation mult := (cycle_mult cfg).

Lemma step_implicit_raise (s : sched) (e : exn) :
  fst (step cfg None s) = Raise e -> e = ZeroDivisionError.
Proof.
  rewrite step_implicit_unfold. cbv zeta.
  destruct (float_pow (gamma cfg) _) as [g | e'] eqn:Ep.
  - unfold apply_lrs. destruct (get_lr cfg _) as [lrs | e'] eqn:Eg; simpl;
      [discriminate |].
    intros H. inversion H; subst. now apply get_lr_raise in Eg.
  - simpl. intros H. inversion H; subst. unfold float_pow in Ep.
    destruct (Req_dec_T _ _); [| discriminate].
    destruct (_ <? _)%Z; [congruence | discriminate].
Qed.

(** What construction can raise. *)
Lemma init_raise (last_epoch0 : Z) (e : exn) :
  init cfg last_epoch0 optimizer = Raise e ->
  (e = AssertionError /\ (warmup >= first)%Z) \/
  (e = ZeroDivisionError /\ (warmup < first)%Z) \/
  (e = KeyError /\ (warmup < first)%Z /\
   last_epoch0 <> (-1)%Z /\ optimizer <> []).
Proof.
  unfold init, initial_lr_check.
  destruct (Z_lt_dec warmup first) as [Hlt | Hge].
  - assert (Hstep :
      match step cfg None
              (Sched (base_max_lr cfg) (IZR first) 0 (IZR last_epoch0)
                     last_epoch0 optimizer optimizer) with
      | (Ok _, self') => Ok (init_lr cfg self')
      | (Raise e', _) => Raise e'
      end = Raise e -> e = ZeroDivisionError).
    { destruct (step cfg None _) as [[[] | e'] s'] eqn:Es; [discriminate |].
      intros H. inversion H; subst.
      eapply step_implicit_raise. rewrite Es. reflexivity. }
    destruct (Z.eq_dec last_epoch0 (-1)) as [He | He].
    + intros H. right; left. split; [now apply Hstep | exact Hlt].
    + destruct optimizer as [| g gs] eqn:Eo.
      * intros H. right; left. split; [now apply Hstep | exact Hlt].
      * intros H. inversion H; subst. right; right.
        repeat split; try assumption. discriminate.
  - intros H. inversion H; subst. left. split; [reflexivity | lia].
Qed.

(** C10 (amended).  Construction raises the assertion error exactly when
    [warmup_steps >= first_cycle_steps], and the assertion is the only
    check of the constructor: with a positive [first_cycle_steps] above
    [warmup_steps], a fresh instance is constructed whatever [cycle_mult],
    [max_lr], [min_lr] and [gamma] are.  When the assertion holds and
    construction raises all the same, the error is the [ZeroDivisionError]
    of the initial step or, for a [last_epoch] other than [-1] and an
    optimizer with groups, the [KeyError] of the base class. *)
Theorem init_assertion (last_epoch0 : Z) :
  (init cfg last_epoch0 optimizer = Raise AssertionError <->
   (warmup >= first)%Z) /\
  ((0 < first)%Z -> (warmup < first)%Z ->
   exists s0, fresh cfg optimizer = Ok s0) /\
  (forall e, (warmup < first)%Z ->
   init cfg last_epoch0 optimizer = Raise e ->
   e = ZeroDivisionError \/
   (e = KeyError /\ last_epoch0 <> (-1)%Z /\ optimizer <> [])).
Proof.
  split; [| split].
  - split.
    + intros H. apply init_raise in H.
      destruct H as [[_ H] | [[H _] | [H _]]];
        [exact H | discriminate H | discriminate H].
    + intros H. unfold init.
      destruct (Z_lt_dec warmup first) as [Hlt | _]; [lia | reflexivity].
  - intros Hf Hw. eexists. now apply fresh_ok.
  - intros e Hw H. apply init_raise in H.
    destruct H as [[_ H] | [[H _] | (H1 & _ & H2 & H3)]];
      [lia | now left | right; tauto].
Qed.

(** The rates right after construction. *)
Lemma fresh_state_rates :
  (0 <= warmup < first)%Z ->
  exists s0,
    fresh cfg optimizer = Ok s0 /\
    param_lrs s0 = floors cfg optimizer /\
    base_lrs s0 = floors cfg optimizer /\
    ((0 < warmup)%Z -> get_lr cfg s0 = Ok (floors cfg optimizer)) /\
    (warmup = 0%Z ->
     get_lr cfg s0 = Ok (map (fun _ => base_max_lr cfg) optimizer)).
Proof.
  intros [Hw0 Hw].
  assert (Hf : (0 < first)%Z) by lia.
  assert (Hw' : IZR warmup < IZR first) by now apply IZR_lt.
  eexists. split; [now apply fresh_ok |].
  set (s0 := Sched _ _ _ _ _ _ _).
  split; [reflexivity |]. split; [reflexivity |].
  assert (P0 : placed cfg optimizer s0 0 (IZR first) 0 0).
  { apply fresh_placed; [now apply fresh_ok | assumption]. }
  assert (Hsafe : safe cfg s0).
  { apply safe_inside; simpl; try lra; lia. }
  rewrite (get_lr_placed optimizer cfg s0 _ _ _ _ P0 Hsafe).
  unfold lr_value, degenerate, floors. simpl.
  destruct (Req_dec_T 0 (-1)) as [Hm | _]; [lra |].
  split.
  - intros Hpos. apply IZR_lt in Hpos.
    destruct (Rlt_dec 0 (IZR warmup)) as [_ | Hn]; [| contradiction].
    f_equal. apply map_ext. intros _. unfold Rdiv. ring.
  - intros H0. rewrite H0.
    destruct (Rlt_dec 0 0) as [Hn | _]; [lra |].
    f_equal. apply map_ext. intros _.
    replace (PI * (0 - 0) / (IZR first - 0)) with 0 by (unfold Rdiv; ring).
    rewrite cos_0. lra.
Qed.

(** C6 (amended).  For every valid configuration, right after construction
    every group's stored rate and every base rate is [min_lr]; [get_lr]
    returns [min_lr] for every group when [warmup_steps > 0], and
    [max_lr] for every group when [warmup_steps = 0]. *)
Theorem fresh_rates :
  (0 <= warmup < first)%Z ->
  exists s0,
    fresh cfg optimizer = Ok s0 /\
    param_lrs s0 = floors cfg optimizer /\
    base_lrs s0 = floors cfg optimizer /\
    ((0 < warmup)%Z -> get_lr cfg s0 = Ok (floors cfg optimizer)) /\
    (warmup = 0%Z ->
     get_lr cfg s0 = Ok (map (fun _ => base_max_lr cfg) optimizer)).
Proof. exact fresh_state_rates. Qed.

End Construction.

(** ** Whole cycles, and the closed form of the explicit call *)

Section WholeCycles.

Variable cfg : config.
Variable optimizer : list R.

Local Abbreviation first := (first_cycle_steps cfg).
Local Abbreviation warmup := (warmup_steps cfg).
Local Abbreviation mult := (cycle_mult cfg).

Lemma advances_trans (allowed : sched -> option Z -> Prop) (s1 s2 s3 : sched) :
  advances cfg allowed s1 s2 -> advances cfg allowed s2 s3 ->
  advances cfg allowed s1 s3.
Proof.
  intros H12 H23. induction H23 as [s2 | s2 s3 epoch _ IH Hcall].
  - exact H12.
  - apply adv_step; [now apply IH | exact Hcall].
Qed.

(** The object after a script of implicit calls is reached by implicit
    calls. *)
Lemma run_implicit_advances (k : nat) (s : sched) :
  advances cfg implicit_call s (snd (run cfg (repeat None k) s)).
Proof.
  revert s. induction k as [| k IH]; intros s; simpl.
  - apply adv_refl.
  - assert (H1 : advances cfg implicit_call s (after cfg None s)).
    { apply adv_step; [apply adv_refl | reflexivity]. }
    unfold bind. unfold after in H1.
    destruct (step cfg None s) as [[[] | e] s1]; simpl in *.
    + eapply advances_trans; [exact H1 | apply IH].
    + exact H1.
Qed.

(** A whole cycle of implicit calls, from its first position to the first
    position of the next cycle. *)
Lemma run_cycle (s : sched) (c z e : Z) :
  placed cfg optimizer s c (IZR z) 0 e ->
  (0 <= c)%Z -> (0 <= warmup < z)%Z ->
  let z' := (int ((IZR z - IZR warmup) * mult) + warmup)%Z in
  (0 < warmup \/ warmup < z')%Z ->
  exists s',
    run cfg (repeat None (Z.to_nat z)) s = (Ok tt, s') /\
    placed cfg optimizer s' (c + 1) (IZR z') 0 (e + z) /\
    synced cfg optimizer s'.
Proof.
  intros P Hc [Hw0 Hw] z' Hz'.
  assert (Hw' : IZR warmup < IZR z) by now apply IZR_lt.
  assert (Hw0' : 0 <= IZR warmup) by now apply IZR_le.
  replace (Z.to_nat z) with (S (Z.to_nat (z - 1))) by lia.
  rewrite repeat_snoc, run_app.
  assert (Hk : INR (Z.to_nat (z - 1)) = IZR z - 1).
  { rewrite INR_to_nat by lia. now rewrite minus_IZR. }
  destruct (run_stay cfg optimizer (Z.to_nat (z - 1)) s c (IZR z) 0 e)
    as (s1 & E1 & P1 & _); try assumption; try lia; try lra.
  rewrite E1.
  destruct (step_restart_placed cfg optimizer s1 _ _ _ _ P1) as [P2 S2];
    [lia | lra |].
  rewrite <- plus_IZR in P2. fold z' in P2.
  replace (0 + INR (Z.to_nat (z - 1)) + 1 - IZR z) with 0 in P2 by lra.
  replace (e + Z.of_nat (Z.to_nat (z - 1)) + 1)%Z with (e + z)%Z in P2 by lia.
  destruct S2 as [E2 Y2].
  { destruct P2 as (_ & Hl & Hp & _).
    unfold safe. rewrite Hl, Hp.
    destruct Hz' as [Hpos | Hlen].
    - right; right; left. apply IZR_lt in Hpos. split; lra.
    - destruct (Rlt_dec 0 (IZR warmup)) as [Hlt | Hge].
      + right; right; left. split; lra.
      + right; right; right. apply IZR_lt in Hlen. split; lra. }
  exists (after cfg None s1). split; [| split; assumption].
  simpl. unfold bind, ret. now rewrite E2.
Qed.

(** [int(math.log(x, b))] for a base above 1: the exponent of the power of
    [b] below [x]. *)
Lemma int_log (b x : R) (n : nat) :
  1 < b -> b ^ n <= x < b ^ S n ->
  math_log x b = Ok (ln x / ln b) /\ int (ln x / ln b) = Z.of_nat n.
Proof.
  intros Hb [Hlo Hhi].
  assert (Hb0 : 0 < b) by lra.
  assert (Hpow : 0 < b ^ n) by now apply pow_lt.
  assert (Hx : 0 < x) by lra.
  assert (Hln : 0 < ln b).
  { rewrite <- ln_1. apply ln_increasing; lra. }
  assert (Hlo' : INR n * ln b <= ln x).
  { rewrite <- ln_pow by assumption.
    destruct Hlo as [Hlt | Heq]; [| rewrite Heq; lra].
    left. now apply ln_increasing. }
  assert (Hhi' : ln x < INR (S n) * ln b).
  { rewrite <- ln_pow by assumption. now apply ln_increasing. }
  rewrite S_INR in Hhi'.
  split.
  - unfold math_log.
    destruct (Rle_dec x 0) as [Hn | _]; [lra |].
    destruct (Rle_dec b 0) as [Hn | _]; [lra |].
    apply truediv_ok. lra.
  - assert (Hq : INR n <= ln x / ln b < INR n + 1).
    { split.
      - apply Rmult_le_reg_r with (ln b); [assumption |].
        unfold Rdiv. rewrite Rmult_assoc, Rinv_l by lra. lra.
      - apply Rmult_lt_reg_r with (ln b); [assumption |].
        unfold Rdiv. rewrite Rmult_assoc, Rinv_l by lra. lra. }
    rewrite INR_IZR_INZ in Hq.
    apply int_eq; [| exact Hq].
    assert (H0 := pos_INR n). rewrite INR_IZR_INZ in H0. lra.
Qed.

(** The explicit call beyond the first cycle, under a multiplier above 1,
    once the logarithm is known. *)
Lemma step_explicit_log (t : Z) (n : nat) (s : sched) :
  1 < mult -> (0 < first <= t)%Z ->
  mult ^ n <= IZR t / IZR first * (mult - 1) + 1 < mult ^ S n ->
  step cfg (Some t) s =
    apply_lrs cfg
      (Sched (base_max_lr cfg * gamma cfg ^ n)
             (IZR first * mult ^ n) (Z.of_nat n)
             (IZR t - IZR (int (IZR first * (mult ^ n - 1) / (mult - 1))))
             t (base_lrs s) (param_lrs s)).
Proof.
  intros Hm Ht Hx.
  destruct (int_log mult _ n Hm Hx) as [El En].
  unfold step, advance_explicit, bind, attr, assign_attr, ret, lift.
  destruct (Z_ge_dec t first) as [_ | Hn]; [| lia].
  destruct (Req_dec_T mult 1) as [H1 | _]; [lra |].
  rewrite truediv_ok by (apply not_0_IZR; lia).
  rewrite El, En.
  assert (Ep : float_pow mult (Z.of_nat n) = Ok (mult ^ n)).
  { rewrite float_pow_nonneg by apply Nat2Z.is_nonneg.
    now rewrite <- pow_powerRZ. }
  rewrite Ep. rewrite truediv_ok by lra. simpl.
  rewrite float_pow_nonneg by apply Nat2Z.is_nonneg.
  rewrite <- pow_powerRZ. reflexivity.
Qed.

(** The explicit call under [cycle_mult == 1.], on an object still in its
    first cycle. *)
Lemma step_explicit_placed_unit (t : Z) (s : sched) (pos : R) (e : Z) :
  mult = 1 -> (0 <= warmup < first)%Z -> (0 <= t)%Z ->
  placed cfg optimizer s 0 (IZR first) pos e ->
  exists s',
    step cfg (Some t) s = (Ok tt, s') /\
    placed cfg optimizer s' (t / first) (IZR first) (IZR (t mod first)) t /\
    synced cfg optimizer s'.
Proof.
  intros H1 [Hw0 Hw] Ht (Pc & Pl & Pp & Pe & Px & Pb & Pn).
  assert (Hw' : IZR warmup < IZR first) by now apply IZR_lt.
  assert (Hr := Z.mod_pos_bound t first ltac:(lia)).
  assert (Hstep : exists s1,
             step cfg (Some t) s = apply_lrs cfg s1 /\
             placed cfg optimizer s1 (t / first) (IZR first)
                    (IZR (t mod first)) t).
  { destruct (Z_lt_dec t first) as [Hlt | Hge].
    - rewrite step_explicit_first by (rewrite ?Pc; lia).
      eexists. split; [reflexivity |].
      rewrite Z.div_small, Z.mod_small by lia.
      unfold placed; simpl. rewrite Pc. tauto.
    - rewrite step_explicit_unit by (assumption || lia).
      eexists. split; [reflexivity |].
      unfold placed; simpl. rewrite Pl. tauto. }
  destruct Hstep as (s1 & -> & P1).
  destruct (apply_lrs_placed cfg optimizer s1 _ _ _ _ P1) as [P2 S2].
  destruct S2 as [R2 Y2].
  { destruct P1 as (_ & Hl & Hp & _).
    apply safe_inside; rewrite ?Hl, ?Hp; try lia; try lra.
    apply IZR_le. lia. }
  exists (snd (apply_lrs cfg s1)). split; [| split; assumption].
  rewrite <- R2. now destruct (apply_lrs cfg s1).
Qed.

(** X1.  Under [cycle_mult == 1.] the explicit call to step [t] on a fresh
    instance and [t] implicit calls agree on [cycle], on [step_in_cycle] and
    on the rates. *)
Theorem explicit_matches_implicit_unit (t : Z) :
  mult = 1 -> (0 <= warmup < first)%Z -> (0 <= t)%Z ->
  exists s0 se si,
    fresh cfg optimizer = Ok s0 /\
    step cfg (Some t) s0 = (Ok tt, se) /\
    run cfg (repeat None (Z.to_nat t)) s0 = (Ok tt, si) /\
    last_epoch se = t /\ last_epoch si = t /\
    cycle se = cycle si /\ step_in_cycle se = step_in_cycle si /\
    get_lr cfg se = get_lr cfg si.
Proof.
  intros H1 Hw Ht.
  assert (F0 := fresh_ok cfg optimizer ltac:(lia) ltac:(lia)).
  assert (P0 := fresh_placed cfg optimizer _ F0 ltac:(lia)).
  destruct (step_explicit_placed_unit t _ _ _ H1 Hw Ht P0)
    as (se & Ee & Pe & _).
  destruct (implicit_unit cfg optimizer (Z.to_nat t) _ H1 Hw F0)
    as (si & Ei & Pi & _).
  rewrite Z2Nat.id in Pi by assumption.
  eexists. exists se, si.
  split; [exact F0 |]. split; [exact Ee |]. split; [exact Ei |].
  assert (Hsafe : forall s, placed cfg optimizer s (t / first) (IZR first)
                              (IZR (t mod first)) t -> safe cfg s).
  { intros s (_ & Hl & Hp & _).
    assert (Hr := Z.mod_pos_bound t first ltac:(lia)).
    apply safe_inside; rewrite ?Hl, ?Hp; try lia.
    - apply IZR_le. lia.
    - apply IZR_lt. lia. }
  rewrite (get_lr_placed optimizer cfg se _ _ _ _ Pe (Hsafe se Pe)).
  rewrite (get_lr_placed optimizer cfg si _ _ _ _ Pi (Hsafe si Pi)).
  destruct Pe as (Pc & Pl & Pp & Pt & Px & _).
  destruct Pi as (Qc & Ql & Qp & Qt & Qx & _).
  repeat split; try congruence.
  f_equal. apply map_ext. intros _. apply lr_value_ext; congruence.
Qed.

End WholeCycles.

(** ** Where the code and the specification part *)

Lemma advances_any (cfg : config) (allowed : sched -> option Z -> Prop)
      (s s' : sched) :
  advances cfg allowed s s' -> advances cfg any_call s s'.
Proof.
  induction 1 as [s | s s1 epoch _ IH _]; [apply adv_refl |].
  apply adv_step; [exact IH | exact I].
Qed.

Lemma int_const (z : Z) (x : R) : x = IZR z -> int x = z.
Proof. intros ->. apply int_IZR. Qed.

(** C1 (failing input).  [first_cycle_steps=10, warmup_steps=2,
    cycle_mult=2.0], absolute step 28: the explicit call on a fresh instance
    places the schedule in cycle 1 at position 18 of a cycle of 20 steps,
    while 28 implicit calls on a fresh instance reach cycle 2 at position 0
    of a cycle of 34 steps. *)
Theorem explicit_differs_from_implicit :
  exists s0 se si,
    fresh doubling one_group = Ok s0 /\
    step doubling (Some 28%Z) s0 = (Ok tt, se) /\
    run doubling (repeat None 28) s0 = (Ok tt, si) /\
    last_epoch se = 28%Z /\ last_epoch si = 28%Z /\
    cycle se = 1%Z /\ step_in_cycle se = 18 /\ cur_cycle_steps se = 20 /\
    cycle si = 2%Z /\ step_in_cycle si = 0 /\ cur_cycle_steps si = 34.
Proof.
  assert (F0 := fresh_ok doubling one_group ltac:(simpl; lia) ltac:(simpl; lia)).
  assert (P0 := fresh_placed doubling one_group _ F0 ltac:(simpl; lia)).
  simpl first_cycle_steps in P0.
  (* the explicit call *)
  assert (Ee := step_explicit_log doubling 28 1
                  (Sched (base_max_lr doubling) 10 0 0 0
                         (floors doubling one_group) (floors doubling one_group))
                  ltac:(simpl; lra) ltac:(simpl; lia) ltac:(simpl; lra)).
  simpl in Ee.
  rewrite (int_const 10 (10 * (2 * 1 - 1) / (2 - 1))) in Ee by lra.
  match type of Ee with _ = apply_lrs _ ?x => set (s1 := x) in Ee end.
  assert (S1 : safe doubling s1).
  { unfold safe, s1; simpl. right; right; right. split; lra. }
  rewrite apply_lrs_safe in Ee by (assumption || reflexivity).
  (* the implicit calls: two whole cycles, of 10 and of 18 steps *)
  destruct (run_cycle doubling one_group _ 0 10 0 P0)
    as (s2 & E2 & P2 & _); try (simpl; lia).
  simpl in P2. rewrite (int_const 16 ((10 - 2) * 2)) in P2 by lra.
  destruct (run_cycle doubling one_group s2 1 18 10 P2)
    as (s3 & E3 & P3 & _); try (simpl; lia).
  simpl in P3. rewrite (int_const 32 ((18 - 2) * 2)) in P3 by lra.
  assert (Ei : run doubling (repeat None 28) (Sched (base_max_lr doubling) 10 0 0 0
                         (floors doubling one_group) (floors doubling one_group))
               = (Ok tt, s3)).
  { change 28%nat with (10 + 18)%nat. rewrite repeat_app, run_app.
    change (Z.to_nat 10) with 10%nat in E2. rewrite E2.
    exact E3. }
  eexists. eexists. exists s3.
  split; [exact F0 |]. split; [exact Ee |]. split; [exact Ei |].
  destruct P3 as (Qc & Ql & Qp & Qe & _).
  simpl. repeat split; try assumption; try lra.
Qed.

(** C7 (failing input).  [first_cycle_steps=10, cycle_mult=1.5,
    warmup_steps=0]: the explicit call to step 30 on a fresh instance
    returns and leaves 22.5 in [cur_cycle_steps], which is no integer. *)
Theorem explicit_cycle_length_not_integer :
  exists s0 s,
    fresh growing one_group = Ok s0 /\
    step growing (Some 30%Z) s0 = (Ok tt, s) /\
    cur_cycle_steps s = 22.5 /\
    ~ integral (cur_cycle_steps s).
Proof.
  assert (F0 := fresh_ok growing one_group ltac:(simpl; lia) ltac:(simpl; lia)).
  eexists. eexists. split; [exact F0 |].
  assert (Ee := step_explicit_log growing 30 2
                  (Sched (base_max_lr growing) 10 0 0 0
                         (floors growing one_group) (floors growing one_group))
                  ltac:(simpl; lra) ltac:(simpl; lia) ltac:(simpl; lra)).
  simpl in Ee.
  rewrite (int_const 25 (10 * (1.5 * (1.5 * 1) - 1) / (1.5 - 1))) in Ee by lra.
  match type of Ee with _ = apply_lrs _ ?x => set (s1 := x) in Ee end.
  assert (S1 : safe growing s1).
  { unfold safe, s1; simpl. right; right; right. split; lra. }
  rewrite apply_lrs_safe in Ee by (assumption || reflexivity).
  split; [exact Ee |]. simpl. split; [lra |].
  intros [z Hz].
  assert (Hlo : IZR 22 < IZR z) by lra.
  assert (Hhi : IZR z < IZR 23) by lra.
  apply lt_IZR in Hlo, Hhi. lia.
Qed.

(** C5 (counterexample).  [first_cycle_steps=3, warmup_steps=2,
    cycle_mult=0.25] is a valid configuration; the third implicit call on a
    fresh instance restarts with [cur_cycle_steps = 2 = warmup_steps], and
    the cycle length is still 2 after the fourth; every call returns. *)
Lemma shrinking_breaks_invariant :
  (0 <= warmup_steps shrinking < first_cycle_steps shrinking)%Z /\
  0 < cycle_mult shrinking /\
  exists s0 s3 s4,
    fresh shrinking one_group = Ok s0 /\
    run shrinking (repeat None 3) s0 = (Ok tt, s3) /\
    run shrinking (repeat None 4) s0 = (Ok tt, s4) /\
    reachable shrinking any_call one_group s3 /\
    reachable shrinking any_call one_group s4 /\
    cur_cycle_steps s3 = 2 /\ cur_cycle_steps s4 = 2 /\
    ~ cycle_invariant shrinking s3 /\ ~ cycle_invariant shrinking s4.
Proof.
  split; [simpl; lia |]. split; [simpl; lra |].
  assert (F0 := fresh_ok shrinking one_group ltac:(simpl; lia) ltac:(simpl; lia)).
  assert (P0 := fresh_placed shrinking one_group _ F0 ltac:(simpl; lia)).
  simpl first_cycle_steps in P0.
  assert (Hint : int ((3 - 2) * 0.25) = 0%Z).
  { apply int_eq; lra. }
  destruct (run_cycle shrinking one_group _ 0 3 0 P0)
    as (s3 & E3 & P3 & _); try (simpl; lia).
  simpl in P3. rewrite Hint in P3. simpl in P3.
  change (Z.to_nat 3) with 3%nat in E3.
  destruct (step_warmup_placed shrinking one_group s3 _ _ _ _ P3)
    as (s4 & E4 & P4 & _); try lia; try (simpl; lra).
  assert (E34 : run shrinking (repeat None 4)
                  (Sched (base_max_lr shrinking) 3 0 0 0
                     (floors shrinking one_group)
                     (floors shrinking one_group)) = (Ok tt, s4)).
  { change 4%nat with (3 + 1)%nat. rewrite repeat_app, run_app, E3.
    simpl. unfold bind, ret. now rewrite E4. }
  assert (Hreach : forall k s,
             run shrinking (repeat None k)
               (Sched (base_max_lr shrinking) 3 0 0 0
                  (floors shrinking one_group)
                  (floors shrinking one_group)) = (Ok tt, s) ->
             reachable shrinking any_call one_group s).
  { intros k s E. eexists. split; [exact F0 |].
    apply advances_any with implicit_call.
    replace s with (snd (run shrinking (repeat None k)
                          (Sched (base_max_lr shrinking) 3 0 0 0
                             (floors shrinking one_group)
                             (floors shrinking one_group))))
      by now rewrite E.
    apply run_implicit_advances. }
  eexists. exists s3, s4. split; [exact F0 |].
  split; [exact E3 |]. split; [exact E34 |].
  split; [exact (Hreach _ _ E3) |]. split; [exact (Hreach _ _ E34) |].
  destruct P3 as (_ & Pl3 & _). destruct P4 as (_ & Pl4 & _).
  split; [exact Pl3 |]. split; [exact Pl4 |].
  unfold cycle_invariant. rewrite Pl3, Pl4. simpl. split; lra.
Qed.

(** C8 (counterexample).  On a fresh instance of the scenario, the explicit
    call to step 5 returns with [last_epoch = 5], and the explicit call to
    step 3 after it returns with [last_epoch = 3]. *)
Lemma explicit_call_goes_back :
  exists s0 s1 s2,
    fresh scenario one_group = Ok s0 /\
    step scenario (Some 5%Z) s0 = (Ok tt, s1) /\
    step scenario (Some 3%Z) s1 = (Ok tt, s2) /\
    last_epoch s1 = 5%Z /\ last_epoch s2 = 3%Z /\
    (last_epoch s2 < last_epoch s1)%Z.
Proof.
  assert (F0 := fresh_ok scenario one_group ltac:(simpl; lia) ltac:(simpl; lia)).
  assert (P0 := fresh_placed scenario one_group _ F0 ltac:(simpl; lia)).
  destruct (step_explicit_placed_unit scenario one_group 5 _ _ _
              ltac:(reflexivity) ltac:(simpl; lia) ltac:(lia) P0)
    as (s1 & E1 & P1 & _).
  change (5 / first_cycle_steps scenario)%Z with 0%Z in P1.
  destruct (step_explicit_placed_unit scenario one_group 3 _ _ _
              ltac:(reflexivity) ltac:(simpl; lia) ltac:(lia) P1)
    as (s2 & E2 & P2 & _).
  eexists. exists s1, s2.
  split; [exact F0 |]. split; [exact E1 |]. split; [exact E2 |].
  destruct P1 as (_ & _ & _ & -> & _). destruct P2 as (_ & _ & _ & -> & _).
  repeat split; lia.
Qed.

(** [first_cycle_steps=10, cycle_mult=0.0, warmup_steps=0]: the explicit
    call to step -2 on a fresh instance assigns the attributes and raises
    in [get_lr]. *)
Lemma step_negative_target :
  let s0 := started collapsing_no_warmup one_group in
  let s := Sched (0.1 * powerRZ 1 0) 10 0 (-2) (-2)
                 (base_lrs s0) (param_lrs s0) in
  step collapsing_no_warmup (Some (-2)%Z) s0 = (Raise ZeroDivisionError, s) /\
  get_lr collapsing_no_warmup s = Raise ZeroDivisionError.
Proof.
  intros s0 s.
  assert (E : step collapsing_no_warmup (Some (-2)%Z) s0
              = apply_lrs collapsing_no_warmup s).
  { apply (step_explicit_first collapsing_no_warmup); simpl; lia. }
  assert (G : get_lr collapsing_no_warmup s = Raise ZeroDivisionError).
  { unfold get_lr, degenerate, s. simpl.
    destruct (Req_dec_T (-2) (-1)) as [Hn | _]; [lra |].
    destruct (Rlt_dec (-2) 0) as [_ | Hn]; [| lra].
    unfold warmup_lr, truediv. simpl.
    destruct (Req_dec_T 0 0) as [_ | Hn]; [reflexivity | lra]. }
  split; [| exact G].
  rewrite E. unfold apply_lrs. now rewrite G.
Qed.

(** The state a call leaves is reached by that call. *)
Lemma reachable_after (cfg : config) (optimizer : list R)
      (epoch : option Z) (r : result unit) (s : sched) :
  (warmup_steps cfg < first_cycle_steps cfg)%Z ->
  (0 < first_cycle_steps cfg)%Z ->
  step cfg epoch (started cfg optimizer) = (r, s) ->
  reachable cfg any_call optimizer s.
Proof.
  intros Hw Hf E. exists (started cfg optimizer).
  split; [now apply fresh_ok |].
  replace s with (after cfg epoch (started cfg optimizer))
    by (unfold after; now rewrite E).
  apply adv_step; [apply adv_refl | exact I].
Qed.

(** C9 (counterexample).  [first_cycle_steps=10, cycle_mult=0.0,
    warmup_steps=0]: on a fresh instance the explicit call to step -2
    raises [ZeroDivisionError] and leaves the object in cycle 0 at position
    -2, a state in which [get_lr] raises [ZeroDivisionError]: the warm-up
    branch divides by [warmup_steps]. *)
Lemma negative_target_divides_by_zero :
  cycle_mult collapsing_no_warmup = 0 /\
  (0 <= warmup_steps collapsing_no_warmup
   < first_cycle_steps collapsing_no_warmup)%Z /\
  exists s0 s,
    fresh collapsing_no_warmup one_group = Ok s0 /\
    step collapsing_no_warmup (Some (-2)%Z) s0 = (Raise ZeroDivisionError, s) /\
    reachable collapsing_no_warmup any_call one_group s /\
    cycle s = 0%Z /\ step_in_cycle s = -2 /\
    get_lr collapsing_no_warmup s = Raise ZeroDivisionError.
Proof.
  split; [reflexivity |]. split; [simpl; lia |].
  destruct step_negative_target as [E G].
  eexists. eexists.
  split; [apply fresh_ok; simpl; lia |].
  split; [exact E |].
  split; [| split; [reflexivity | split; [reflexivity | exact G]]].
  eapply reachable_after; [| | exact E]; simpl; lia.
Qed.

(** [first_cycle_steps=0, warmup_steps=-1, cycle_mult=0.5]: the initial step
    of the construction restarts at once with a cycle of
    [int(0.5) - 1 = -1] steps, where the cosine branch divides by
    [cur_cycle_steps - warmup_steps = 0]. *)
Lemma fresh_empty_first_cycle :
  fresh empty_first_cycle one_group = Raise ZeroDivisionError.
Proof.
  unfold fresh, init.
  destruct (Z_lt_dec _ _) as [_ | Hn]; [| simpl in Hn; lia].
  unfold initial_lr_check.
  destruct (Z.eq_dec (-1) (-1)) as [_ | Hn]; [| lia].
  rewrite step_implicit_restart by (simpl; lra || lia).
  set (s1 := Sched _ _ _ _ _ _ _).
  assert (Hi : int ((0 - -1) * 0.5) = 0%Z) by (apply int_eq; lra).
  assert (G : get_lr empty_first_cycle s1 = Raise ZeroDivisionError).
  { unfold get_lr, degenerate, s1. simpl. rewrite Hi.
    destruct (Req_dec_T 0.5 0) as [Hn | _]; [lra |]. simpl.
    destruct (Req_dec_T (-1 + 1 - 0) (-1)) as [Hn | _]; [lra |].
    destruct (Rlt_dec (-1 + 1 - 0) (-1)) as [Hn | _]; [lra |].
    unfold cosine_lr, truediv. simpl.
    destruct (Req_dec_T (0 + -1 - -1) 0) as [_ | Hn]; [reflexivity | lra]. }
  unfold apply_lrs. now rewrite G.
Qed.

(** Resuming the scenario at step 9 over an optimizer that no scheduler has
    been attached to: the base class finds no ['initial_lr']. *)
Lemma resume_without_initial_lr :
  init scenario 9 one_group = Raise KeyError.
Proof.
  unfold init, initial_lr_check.
  destruct (Z_lt_dec _ _) as [_ | Hn]; [| simpl in Hn; lia].
  destruct (Z.eq_dec 9 (-1)) as [Hn | _]; [lia | reflexivity].
Qed.

(** C10 (counterexample).  [first_cycle_steps=0, warmup_steps=-1,
    cycle_mult=0.5]: the assertion holds, and the construction of a fresh
    instance raises [ZeroDivisionError]. *)
Lemma construction_division_error :
  (warmup_steps empty_first_cycle < first_cycle_steps empty_first_cycle)%Z /\
  fresh empty_first_cycle one_group = Raise ZeroDivisionError.
Proof.
  split; [simpl; lia | exact fresh_empty_first_cycle].
Qed.

(** With [first_cycle_steps=10, cycle_mult=1.5, warmup_steps=0] the explicit
    call to step 81 on a fresh instance returns at position 34 of a cycle
    of 33.75 steps: the closed form of the explicit branch leaves the
    position outside the cycle. *)
Lemma explicit_position_beyond_cycle :
  exists s0 s,
    fresh growing one_group = Ok s0 /\
    step growing (Some 81%Z) s0 = (Ok tt, s) /\
    step_in_cycle s = 34 /\ cur_cycle_steps s = 33.75 /\
    ~ cycle_invariant growing s.
Proof.
  assert (F0 := fresh_ok growing one_group ltac:(simpl; lia) ltac:(simpl; lia)).
  eexists. eexists. split; [exact F0 |].
  assert (Ee := step_explicit_log growing 81 3
                  (Sched (base_max_lr growing) 10 0 0 0
                         (floors growing one_group) (floors growing one_group))
                  ltac:(simpl; lra) ltac:(simpl; lia) ltac:(simpl; lra)).
  simpl in Ee.
  assert (Hint : int (10 * (1.5 * (1.5 * (1.5 * 1)) - 1) / (1.5 - 1)) = 47%Z).
  { apply int_eq; lra. }
  rewrite Hint in Ee.
  match type of Ee with _ = apply_lrs _ ?x => set (s1 := x) in Ee end.
  assert (S1 : safe growing s1).
  { unfold safe, s1; simpl. right; right; right. split; lra. }
  rewrite apply_lrs_safe in Ee by (assumption || reflexivity).
  split; [exact Ee |]. simpl. split; [lra |]. split; [lra |].
  unfold cycle_invariant. simpl. lra.
Qed.

(** C6 (counterexample).  [first_cycle_steps=10, max_lr=0.1, min_lr=0.001]
    with the default [warmup_steps=0]: right after construction [get_lr]
    returns [max_lr = 0.1] for the group, not [min_lr]. *)
Lemma fresh_rate_without_warmup :
  (0 <= warmup_steps no_warmup < first_cycle_steps no_warmup)%Z /\
  exists s0,
    fresh no_warmup one_group = Ok s0 /\
    get_lr no_warmup s0 = Ok [0.1] /\
    get_lr no_warmup s0 <> Ok (floors no_warmup one_group).
Proof.
  split; [simpl; lia |].
  destruct (fresh_state_rates no_warmup one_group ltac:(simpl; lia))
    as (s0 & F0 & _ & _ & _ & Hg).
  specialize (Hg eq_refl). simpl in Hg.
  exists s0. split; [exact F0 |]. split; [exact Hg |].
  rewrite Hg. simpl. intros H. inversion H. lra.
Qed.

(** ** The theorems at concrete inputs *)

Lemma fresh_started (cfg : config) (optimizer : list R) :
  (warmup_steps cfg < first_cycle_steps cfg)%Z ->
  (0 < first_cycle_steps cfg)%Z ->
  fresh cfg optimizer = Ok (started cfg optimizer).
Proof. apply fresh_ok. Qed.

Lemma get_lr_formula_witness :
  base_lrs (started scenario one_group) = floors scenario one_group /\
  0 <= step_in_cycle (started scenario one_group) /\
  degenerate scenario (started scenario one_group) = false /\
  get_lr scenario (started scenario one_group) =
    Ok (map (fun _ => spec_rate 0 0.1 0 2 10) one_group).
Proof.
  split; [reflexivity |]. split; [simpl; lra |]. split; [reflexivity |].
  apply (get_lr_formula scenario one_group (started scenario one_group)).
  - reflexivity.
  - simpl; lra.
  - reflexivity.
  - left; simpl; lra.
Defined.

Lemma implicit_full_cycle_restarts_witness :
  (0 <= 2 < 10)%Z /\ 0 < 1 /\
  exists s0,
    fresh scenario one_group = Ok s0 /\
    step_in_cycle s0 = 0 /\ cur_cycle_steps s0 = 10 /\
    let s' := snd (run scenario (repeat None 10) s0) in
    step_in_cycle s' = 0 /\
    cycle s' = (cycle s0 + 1)%Z /\
    max_lr s' = max_lr s0 * 1 /\
    cur_cycle_steps s' = IZR (Zfloor ((cur_cycle_steps s0 - 2) * 1) + 2).
Proof.
  split; [lia |]. split; [lra |].
  apply (implicit_full_cycle_restarts scenario one_group); simpl; [lia | lra].
Defined.

Lemma invariant_reachable_witness :
  (0 <= 2 < 10)%Z /\ 1 <= 2 /\
  cycle_invariant doubling (after doubling None (started doubling one_group)).
Proof.
  split; [lia |]. split; [lra |].
  apply (invariant_reachable doubling one_group); simpl; [lia | lra |].
  exists (started doubling one_group). split.
  - apply fresh_started; simpl; lia.
  - apply adv_step; [apply adv_refl | left; reflexivity].
Defined.

Lemma fresh_rates_witness :
  (0 <= 2 < 10)%Z /\
  exists s0,
    fresh scenario one_group = Ok s0 /\
    param_lrs s0 = floors scenario one_group /\
    base_lrs s0 = floors scenario one_group /\
    ((0 < 2)%Z -> get_lr scenario s0 = Ok (floors scenario one_group)) /\
    (2%Z = 0%Z ->
     get_lr scenario s0 = Ok (map (fun _ => 0.1) one_group)).
Proof.
  split; [lia |].
  apply (fresh_rates scenario one_group). simpl; lia.
Defined.

Lemma last_epoch_monotone_witness :
  (exists s1 s2,
     step scenario None (started scenario one_group) = (Ok tt, s1) /\
     step scenario (Some 5%Z) s1 = (Ok tt, s2) /\
     advances scenario target_not_behind (started scenario one_group) s2 /\
     (last_epoch (started scenario one_group) <= last_epoch s2)%Z /\
     last_epoch s1 = 1%Z /\ last_epoch s2 = 5%Z) /\
  (step collapsing (Some 10%Z) (started collapsing one_group)
   = (Raise ValueError, started collapsing one_group) /\
   (last_epoch (started collapsing one_group)
    = last_epoch (started collapsing one_group) \/
    last_epoch (started collapsing one_group) = 10%Z)).
Proof.
  split.
  - assert (F0 : fresh scenario one_group = Ok (started scenario one_group))
      by (apply fresh_started; simpl; lia).
    assert (P0 := fresh_placed scenario one_group _ F0 ltac:(simpl; lia)).
    destruct (step_stay_placed scenario one_group _ _ _ _ _ P0)
      as (s1 & E1 & P1 & _); try (simpl; lia); try (simpl; lra).
    destruct (step_explicit_placed_unit scenario one_group 5 _ _ _
                ltac:(reflexivity) ltac:(simpl; lia) ltac:(lia) P1)
      as (s2 & E2 & _).
    assert (L1 : last_epoch s1 = 1%Z)
      by (destruct P1 as (_ & _ & _ & -> & _); lia).
    assert (A1 : advances scenario target_not_behind
                   (started scenario one_group) s1).
    { rewrite <- (step_returned scenario _ _ _ E1).
      apply adv_step; [apply adv_refl | intros t Ht; discriminate]. }
    assert (A2 : advances scenario target_not_behind
                   (started scenario one_group) s2).
    { rewrite <- (step_returned scenario _ _ _ E2).
      apply adv_step; [exact A1 |].
      intros t Ht. inversion Ht; subst. lia. }
    exists s1, s2. split; [exact E1 |]. split; [exact E2 |].
    split; [exact A2 |].
    split; [exact (proj1 (last_epoch_monotone scenario _ _ A2)) |].
    split; [exact L1 |].
    exact (proj1 (proj2 (last_epoch_monotone scenario _ _ A1))
             (Some 5%Z) s2 E2).
  - assert (E : step collapsing (Some 10%Z) (started collapsing one_group)
                = (Raise ValueError, started collapsing one_group)).
    { apply (step_explicit_zero collapsing);
        [reflexivity | simpl; lia | simpl; lia]. }
    split; [exact E |].
    exact (proj2 (proj2 (last_epoch_monotone collapsing _ _
                           (adv_refl collapsing target_not_behind
                              (started collapsing one_group))))
             (Some 10%Z) ValueError _ E).
Defined.

Lemma degenerate_guard_witness :
  cycle_mult collapsing = 0 /\ (0 <= 2 < 10)%Z /\
  exists s,
    run collapsing (repeat None 10) (started collapsing one_group)
    = (Ok tt, s) /\
    reachable collapsing any_call one_group s /\
    cycle s = 1%Z /\
    get_lr collapsing s = Ok (floors collapsing one_group) /\
    (exists lrs, get_lr collapsing s = Ok lrs) /\
    exists s',
      step collapsing_no_warmup (Some (-2)%Z)
           (started collapsing_no_warmup one_group)
      = (Raise ZeroDivisionError, s') /\
      get_lr collapsing_no_warmup s' = Raise ZeroDivisionError /\
      cycle s' = 0%Z /\ warmup_steps collapsing_no_warmup = 0%Z /\
      step_in_cycle s' < 0.
Proof.
  assert (F0 : fresh collapsing one_group = Ok (started collapsing one_group))
    by (apply fresh_started; simpl; lia).
  assert (P0 := fresh_placed collapsing one_group _ F0 ltac:(simpl; lia)).
  assert (Hi : int ((10 - 2) * 0) = 0%Z) by (apply int_const; simpl; lra).
  destruct (run_cycle collapsing one_group _ 0 10 0 P0)
    as (s & E & P & _);
    [lia | simpl; lia | simpl; left; lia |].
  change (Z.to_nat 10) with 10%nat in E.
  assert (Hadv : advances collapsing implicit_call
                   (started collapsing one_group) s).
  { replace s with (snd (run collapsing (repeat None 10)
                           (started collapsing one_group)))
      by now rewrite E.
    apply run_implicit_advances. }
  assert (Hany : reachable collapsing any_call one_group s).
  { exists (started collapsing one_group). split; [exact F0 |].
    now apply (advances_any collapsing implicit_call). }
  assert (Hcount : reachable collapsing step_count_call one_group s).
  { exists (started collapsing one_group). split; [exact F0 |].
    clear - Hadv. induction Hadv as [s | s s1 epoch _ IH Hcall];
      [apply adv_refl |].
    apply adv_step; [exact IH |].
    intros t Ht. rewrite Hcall in Ht. discriminate. }
  assert (Hc : cycle s = 1%Z) by (destruct P as (-> & _); lia).
  assert (Hpos : (0 < cycle s)%Z) by lia.
  destruct (degenerate_guard collapsing one_group
              ltac:(reflexivity) ltac:(simpl; lia) s Hany)
    as (G1 & _ & G3 & _).
  split; [reflexivity |]. split; [lia |].
  exists s. split; [exact E |]. split; [exact Hany |]. split; [exact Hc |].
  split; [exact (G1 Hpos) |]. split; [exact (G3 Hcount) |].
  destruct step_negative_target as [E' G'].
  eexists. split; [exact E' |]. split; [exact G' |].
  assert (Hr' : reachable collapsing_no_warmup any_call one_group
                  (Sched (0.1 * powerRZ 1 0) 10 0 (-2) (-2)
                     (base_lrs (started collapsing_no_warmup one_group))
                     (param_lrs (started collapsing_no_warmup one_group)))).
  { eapply reachable_after; [| | exact E']; simpl; lia. }
  destruct (degenerate_guard collapsing_no_warmup one_group
              ltac:(reflexivity) ltac:(simpl; lia) _ Hr')
    as (_ & _ & _ & G4).
  exact (proj2 (G4 ZeroDivisionError G')).
Defined.

Lemma init_assertion_witness :
  ((0 < 10)%Z /\ (2 < 10)%Z /\
   exists s0, fresh scenario one_group = Ok s0) /\
  ((-1 < 0)%Z /\
   init empty_first_cycle (-1) one_group = Raise ZeroDivisionError /\
   (ZeroDivisionError = ZeroDivisionError \/
    (ZeroDivisionError = KeyError /\ (-1)%Z <> (-1)%Z /\ one_group <> []))) /\
  ((2 < 10)%Z /\
   init scenario 9 one_group = Raise KeyError /\
   (KeyError = ZeroDivisionError \/
    (KeyError = KeyError /\ 9%Z <> (-1)%Z /\ one_group <> []))).
Proof.
  split; [| split].
  - split; [lia |]. split; [lia |].
    apply (proj1 (proj2 (init_assertion scenario one_group (-1))));
      simpl; lia.
  - split; [lia |]. split; [exact fresh_empty_first_cycle |].
    apply (proj2 (proj2 (init_assertion empty_first_cycle one_group (-1))));
      [simpl; lia | exact fresh_empty_first_cycle].
  - split; [lia |]. split; [exact resume_without_initial_lr |].
    apply (proj2 (proj2 (init_assertion scenario one_group 9)));
      [simpl; lia | exact resume_without_initial_lr].
Defined.

(** ** The rates that [get_lr] returns *)

Section RateProperties.

Variable cfg : config.

Local Abbreviation first := (first_cycle_steps cfg).
Local Abbreviation warmup := (warmup_steps cfg).
Local Abbreviation mult := (cycle_mult cfg).

Lemma for_each_Forall2 {A B : Type} (f : A -> result B) (l : list A)
      (r : list B) :
  for_each f l = Ok r -> Forall2 (fun a b => f a = Ok b) l r.
Proof.
  revert r. induction l as [| a l IH]; simpl; intros r H.
  - inversion H. constructor.
  - destruct (f a) as [b |] eqn:Ea; simpl in H; [| discriminate].
    destruct (for_each f l) as [bs |]; simpl in H; [| discriminate].
    inversion H; subst. constructor; [assumption | now apply IH].
Qed.

Lemma Forall2_same {A : Type} (P : A -> A -> Prop) (l : list A) :
  Forall (fun a => P a a) l -> Forall2 P l l.
Proof. induction 1; constructor; assumption. Qed.

Lemma Forall2_with {A B : Type} (P : A -> Prop) (Q R' : A -> B -> Prop)
      (l : list A) (r : list B) :
  (forall a b, P a -> Q a b -> R' a b) ->
  Forall P l -> Forall2 Q l r -> Forall2 R' l r.
Proof.
  intros Himp HP HQ. revert HP.
  induction HQ as [| a b l r Hab _ IH]; intros HP; constructor.
  - apply Himp; [now inversion HP | assumption].
  - apply IH. now inversion HP.
Qed.

Lemma Forall2_common {A B : Type} (P : A -> Prop) (Q1 Q2 : A -> B -> Prop)
      (R' : B -> B -> Prop) (l : list A) (r1 r2 : list B) :
  (forall a b c, P a -> Q1 a b -> Q2 a c -> R' b c) ->
  Forall P l -> Forall2 Q1 l r1 -> Forall2 Q2 l r2 -> Forall2 R' r1 r2.
Proof.
  intros Himp HP H1. revert r2 HP.
  induction H1 as [| a b l r1 Hab _ IH]; intros r2 HP H2; inversion H2; subst;
    constructor.
  - eapply Himp; [| eassumption | eassumption]. now inversion HP.
  - apply IH; [now inversion HP | assumption].
Qed.

Lemma fraction_bounds (a d : R) : 0 <= a -> a < d -> 0 <= a / d < 1.
Proof.
  intros Ha Hd. assert (Hi : 0 < / d) by (apply Rinv_0_lt_compat; lra).
  unfold Rdiv. split; [apply Rmult_le_pos; lra |].
  replace 1 with (d * / d) by (field; lra).
  apply Rmult_lt_compat_r; assumption.
Qed.

Lemma fraction_le (a b d : R) : 0 < d -> a <= b -> a / d <= b / d.
Proof.
  intros Hd Hab. assert (Hi : 0 < / d) by (apply Rinv_0_lt_compat; lra).
  unfold Rdiv. apply Rmult_le_compat_r; lra.
Qed.

(** X2.  Whenever [get_lr] returns, with the schedule not started or at a
    position that is not negative, and with no base rate above [max_lr],
    every rate it returns lies between the base rate of its group and
    [max_lr]. *)
Theorem get_lr_within_bounds (s : sched) (lrs : list R) :
  get_lr cfg s = Ok lrs ->
  step_in_cycle s = -1 \/ 0 <= step_in_cycle s ->
  Forall (fun b => b <= max_lr s) (base_lrs s) ->
  Forall2 (fun b r => b <= r <= max_lr s) (base_lrs s) lrs.
Proof.
  unfold get_lr. intros H Hpos Hmax.
  assert (Hsame : Forall2 (fun b r => b <= r <= max_lr s)
                          (base_lrs s) (base_lrs s)).
  { apply Forall2_same. revert Hmax. apply Forall_impl. intros b Hb. lra. }
  destruct (degenerate cfg s); [inversion H; subst; exact Hsame |].
  destruct (Req_dec_T (step_in_cycle s) (-1)) as [_ | Hne];
    [inversion H; subst; exact Hsame |].
  destruct Hpos as [Hm | Hpos]; [contradiction |].
  destruct (Rlt_dec (step_in_cycle s) (IZR warmup)) as [Hlt | Hge];
    apply for_each_Forall2 in H; revert Hmax H; apply Forall2_with;
    intros b r Hb Hr.
  - unfold warmup_lr, truediv in Hr.
    destruct (Req_dec_T (IZR warmup) 0) as [| _]; [discriminate |].
    simpl in Hr. inversion Hr; subst; clear Hr.
    destruct (fraction_bounds (step_in_cycle s) (IZR warmup) Hpos Hlt)
      as [F0 F1].
    replace ((max_lr s - b) * step_in_cycle s / IZR warmup + b)
      with (b + (max_lr s - b) * (step_in_cycle s / IZR warmup))
      by (unfold Rdiv; ring).
    nra.
  - unfold cosine_lr, truediv in Hr.
    destruct (Req_dec_T (cur_cycle_steps s - IZR warmup) 0) as [| _];
      [discriminate |].
    simpl in Hr. inversion Hr; subst; clear Hr.
    match goal with |- context [cos ?x] => destruct (COS_bound x) as [C0 C1];
      set (c := cos x) in * end.
    nra.
Qed.

(** X3.  Inside a cycle the rate follows the position: while both positions
    are in the warm-up the later one has no smaller rate, and while both are
    past the warm-up the later one has no larger rate. *)
Theorem rate_monotone_in_phase (s : sched) (p q : R) (lp lq : list R) :
  Forall (fun b => b <= max_lr s) (base_lrs s) ->
  get_lr cfg (set_step_in_cycle p s) = Ok lp ->
  get_lr cfg (set_step_in_cycle q s) = Ok lq ->
  p <= q ->
  (0 <= p /\ q < IZR warmup -> Forall2 Rle lp lq) /\
  (0 <= IZR warmup <= p /\ q <= cur_cycle_steps s -> Forall2 Rle lq lp).
Proof.
  unfold get_lr, degenerate. simpl. intros Hmax Hp Hq Hpq.
  destruct ((0 <? cycle s)%Z && _).
  { inversion Hp; inversion Hq; subst.
    split; intros _; apply Forall2_same; apply Forall_forall; intros; lra. }
  split.
  - intros [H0 Hw].
    destruct (Req_dec_T p (-1)) as [| _]; [lra |].
    destruct (Req_dec_T q (-1)) as [| _]; [lra |].
    destruct (Rlt_dec p (IZR warmup)) as [_ | Hn]; [| lra].
    destruct (Rlt_dec q (IZR warmup)) as [_ | Hn]; [| lra].
    apply for_each_Forall2 in Hp, Hq.
    revert Hmax Hp Hq. apply Forall2_common. intros b x y Hb Hx Hy.
    unfold warmup_lr, truediv in Hx, Hy. simpl in Hx, Hy.
    destruct (Req_dec_T (IZR warmup) 0) as [| _]; [discriminate |].
    simpl in Hx, Hy. inversion Hx; inversion Hy; subst.
    assert (Hi : 0 < / IZR warmup) by (apply Rinv_0_lt_compat; lra).
    assert (Hm : (max_lr s - b) * p <= (max_lr s - b) * q) by nra.
    unfold Rdiv. apply Rplus_le_compat_r. apply Rmult_le_compat_r; lra.
  - intros [[Hw0 Hw] Hc].
    destruct (Req_dec_T p (-1)) as [| _]; [lra |].
    destruct (Req_dec_T q (-1)) as [| _]; [lra |].
    destruct (Rlt_dec p (IZR warmup)) as [Hn | _]; [lra |].
    destruct (Rlt_dec q (IZR warmup)) as [Hn | _]; [lra |].
    apply for_each_Forall2 in Hp, Hq.
    revert Hmax Hq Hp. apply Forall2_common. intros b y x Hb Hy Hx.
    unfold cosine_lr, truediv in Hx, Hy. simpl in Hx, Hy.
    destruct (Req_dec_T (cur_cycle_steps s - IZR warmup) 0) as [| Hd];
      [discriminate |].
    simpl in Hx, Hy. inversion Hx; inversion Hy; subst.
    set (d := cur_cycle_steps s - IZR warmup) in *.
    assert (Hd0 : 0 < d) by (unfold d in *; lra).
    assert (Fp : 0 <= (p - IZR warmup) / d).
    { apply Rmult_le_pos; [lra |]. left. apply Rinv_0_lt_compat. lra. }
    assert (Fpq : (p - IZR warmup) / d <= (q - IZR warmup) / d).
    { apply fraction_le; lra. }
    assert (Fq : (q - IZR warmup) / d <= 1).
    { replace 1 with (d / d) by (field; lra).
      apply fraction_le; [assumption |]. unfold d. lra. }
    assert (Hpi := PI_RGT_0).
    assert (Hcos : cos (PI * (q - IZR warmup) / d)
                   <= cos (PI * (p - IZR warmup) / d)).
    { replace (PI * (q - IZR warmup) / d) with (PI * ((q - IZR warmup) / d))
        by (unfold Rdiv; ring).
      replace (PI * (p - IZR warmup) / d) with (PI * ((p - IZR warmup) / d))
        by (unfold Rdiv; ring).
      apply cos_decr_1; nra. }
    nra.
Qed.

(** X4.  Past the warm-up and outside the guard: at position [warmup_steps]
    every group has the rate [max_lr], and halfway through the decay every
    group has the mean of its base rate and [max_lr]. *)
Theorem rate_at_peak_and_midpoint (s : sched) :
  degenerate cfg s = false ->
  0 <= IZR warmup <= step_in_cycle s ->
  cur_cycle_steps s <> IZR warmup ->
  (step_in_cycle s = IZR warmup ->
   get_lr cfg s = Ok (map (fun _ => max_lr s) (base_lrs s))) /\
  (step_in_cycle s - IZR warmup = (cur_cycle_steps s - IZR warmup) / 2 ->
   get_lr cfg s = Ok (map (fun b => (b + max_lr s) / 2) (base_lrs s))).
Proof.
  intros Hd [Hw0 Hw] Hc.
  assert (Hsafe : safe cfg s).
  { unfold safe. right; right; right. split; assumption. }
  rewrite get_lr_value by assumption.
  assert (Hv : forall b,
             lr_value cfg s b =
               b + (max_lr s - b)
                   * (1 + cos (PI * (step_in_cycle s - IZR warmup)
                               / (cur_cycle_steps s - IZR warmup))) / 2).
  { intros b. unfold lr_value. rewrite Hd.
    destruct (Req_dec_T (step_in_cycle s) (-1)) as [| _]; [lra |].
    destruct (Rlt_dec (step_in_cycle s) (IZR warmup)) as [| _]; [lra |].
    reflexivity. }
  split; intros Hpos; f_equal; apply map_ext; intros b; rewrite Hv.
  - rewrite Hpos.
    replace (PI * (IZR warmup - IZR warmup)
             / (cur_cycle_steps s - IZR warmup)) with 0
      by (unfold Rdiv; ring).
    rewrite cos_0. lra.
  - rewrite Hpos.
    replace (PI * ((cur_cycle_steps s - IZR warmup) / 2)
             / (cur_cycle_steps s - IZR warmup)) with (PI / 2)
      by (field; lra).
    rewrite cos_PI2. lra.
Qed.

(** X5.  [get_lr] raises exactly when there is a group, the guard and the
    not-started case do not apply, and the division of the branch taken is by
    zero: [warmup_steps = 0] in the warm-up branch, or
    [cur_cycle_steps = warmup_steps] in the cosine branch.  The exception is
    then [ZeroDivisionError]. *)
Theorem get_lr_raises_iff (s : sched) (e : exn) :
  get_lr cfg s = Raise e <->
  e = ZeroDivisionError /\ base_lrs s <> [] /\
  degenerate cfg s = false /\ step_in_cycle s <> -1 /\
  ((step_in_cycle s < IZR warmup /\ warmup = 0%Z) \/
   (IZR warmup <= step_in_cycle s /\ cur_cycle_steps s = IZR warmup)).
Proof.
  split.
  - intros H. split; [now apply (get_lr_raise cfg s) |].
    unfold get_lr in H.
    destruct (degenerate cfg s); [discriminate |].
    destruct (Req_dec_T (step_in_cycle s) (-1)) as [| Hne]; [discriminate |].
    destruct (Rlt_dec (step_in_cycle s) (IZR warmup)) as [Hlt | Hge];
      apply for_each_raise in H; destruct H as (b & Hin & Hb);
      (split; [intros Hnil; rewrite Hnil in Hin; inversion Hin |]);
      split; try reflexivity; split; try assumption.
    + left. split; [assumption |].
      unfold warmup_lr, truediv in Hb.
      destruct (Req_dec_T (IZR warmup) 0) as [H0 | _]; [| discriminate].
      now apply eq_IZR.
    + right. split; [lra |].
      unfold cosine_lr, truediv in Hb.
      destruct (Req_dec_T (cur_cycle_steps s - IZR warmup) 0) as [H0 | _];
        [lra | discriminate].
  - intros (-> & Hnil & Hd & Hne & Hbranch). unfold get_lr. rewrite Hd.
    destruct (Req_dec_T (step_in_cycle s) (-1)) as [| _]; [contradiction |].
    destruct (base_lrs s) as [| b l]; [contradiction |].
    destruct Hbranch as [[Hlt H0] | [Hge Hc]].
    + destruct (Rlt_dec (step_in_cycle s) (IZR warmup)) as [_ | Hn];
        [| contradiction].
      simpl. unfold warmup_lr, truediv. rewrite H0.
      destruct (Req_dec_T 0 0) as [_ | Hn]; [reflexivity | lra].
    + destruct (Rlt_dec (step_in_cycle s) (IZR warmup)) as [Hn | _]; [lra |].
      simpl. unfold cosine_lr, truediv.
      destruct (Req_dec_T (cur_cycle_steps s - IZR warmup) 0) as [_ | Hn];
        [reflexivity | lra].
Qed.

End RateProperties.

(** ** What every call keeps, and the explicit call outside [cycle_mult == 1.] *)

Section CallProperties.

Variable cfg : config.
Variable optimizer : list R.

Local Abbreviation first := (first_cycle_steps cfg).
Local Abbreviation warmup := (warmup_steps cfg).
Local Abbreviation mult := (cycle_mult cfg).

Lemma fresh_groups (s0 : sched) :
  fresh cfg optimizer = Ok s0 ->
  base_lrs s0 = floors cfg optimizer /\
  param_lrs s0 = floors cfg optimizer /\
  integral (cur_cycle_steps s0).
Proof.
  unfold fresh, init. destruct (Z_lt_dec warmup first) as [_ |]; [| discriminate].
  set (self := Sched _ _ _ _ _ _ _).
  assert (Hlen := proj2 (after_base_lrs cfg None self)).
  assert (Hint : integral (cur_cycle_steps (after cfg None self))).
  { apply implicit_integral. exists first. reflexivity. }
  unfold after in Hlen, Hint.
  destruct (step cfg None self) as [[[] | e] s']; [| discriminate].
  intros H. inversion H; subst; clear H. simpl in *.
  assert (Hf : map (fun _ : R => min_lr cfg) (param_lrs s')
               = floors cfg optimizer).
  { unfold floors. now apply map_const_length. }
  rewrite Hf. repeat split. exact Hint.
Qed.

(** X6.  No call of [step], returning or raising, changes the base rates or
    the number of groups: in every reachable state the base rates are
    [min_lr], one for each group of the optimizer, and every group has a
    rate. *)
Theorem groups_kept (s : sched) :
  reachable cfg any_call optimizer s ->
  base_lrs s = floors cfg optimizer /\
  length (param_lrs s) = length optimizer.
Proof.
  intros (s0 & H0 & Hadv).
  induction Hadv as [s0 | s0 s1 epoch _ IH _].
  - destruct (fresh_groups s0 H0) as (Hb & Hp & _).
    rewrite Hb, Hp. split; [reflexivity | apply floors_length].
  - destruct (IH H0) as [Hb Hn].
    destruct (after_base_lrs cfg epoch s1) as [Hb' Hn'].
    rewrite Hb', Hn'. split; assumption.
Qed.

(** X7.  Whatever the configuration, implicit calls leave an integer in
    [cur_cycle_steps]. *)
Theorem implicit_cycle_length_integer (s : sched) :
  reachable cfg implicit_call optimizer s ->
  integral (cur_cycle_steps s).
Proof.
  intros (s0 & H0 & Hadv).
  induction Hadv as [s0 | s0 s1 epoch _ IH Hcall].
  - now destruct (fresh_groups s0 H0) as (_ & _ & Hi).
  - unfold implicit_call in Hcall. subst epoch.
    apply implicit_integral. now apply IH.
Qed.


(** Every real from 1 on lies between two successive powers of a base
    above 1. *)
Lemma pow_bracket (m x : R) :
  1 < m -> 1 <= x -> exists n : nat, m ^ n <= x < m ^ S n.
Proof.
  intros Hm Hx.
  assert (Hln : 0 < ln m) by (rewrite <- ln_1; apply ln_increasing; lra).
  assert (Hlx : 0 <= ln x).
  { destruct Hx as [Hx | <-]; [| rewrite ln_1; lra].
    left. rewrite <- ln_1. apply ln_increasing; lra. }
  set (l := ln x / ln m).
  assert (Hl : 0 <= l).
  { unfold l, Rdiv. apply Rmult_le_pos; [assumption |].
    left. now apply Rinv_0_lt_compat. }
  assert (Hz : (0 <= Zfloor l)%Z) by (apply Zfloor_lub; exact Hl).
  destruct (Zfloor_bound l) as [B0 B1].
  exists (Z.to_nat (Zfloor l)).
  assert (Hn : INR (Z.to_nat (Zfloor l)) = IZR (Zfloor l)).
  { rewrite INR_IZR_INZ, Z2Nat.id by assumption. reflexivity. }
  assert (Hlx' : ln x = l * ln m) by (unfold l; field; lra).
  assert (Hpow : forall k, 0 < m ^ k) by (intros k; apply pow_lt; lra).
  split.
  - destruct (Rle_lt_dec (m ^ Z.to_nat (Zfloor l)) x) as [Hle | Hgt];
      [assumption | exfalso].
    apply ln_increasing in Hgt; [| lra].
    rewrite ln_pow, Hn, Hlx' in Hgt by lra. nra.
  - apply ln_lt_inv; [lra | apply Hpow |].
    rewrite ln_pow, S_INR, Hn, Hlx' by lra. nra.
Qed.

(** X9.  With [cycle_mult > 1] and a valid warm-up, an explicit call to a
    step [t >= first_cycle_steps] returns in every state: it lands in a
    cycle [n >= 1] of length [first_cycle_steps * cycle_mult ** n], at a
    position from 0 up to less than one step past that length. *)
Theorem explicit_growing_lands (t : Z) (s : sched) :
  (0 <= warmup < first)%Z -> 1 < mult -> (first <= t)%Z ->
  exists (n : nat) (s' : sched),
    (1 <= n)%nat /\
    step cfg (Some t) s = (Ok tt, s') /\
    cycle s' = Z.of_nat n /\
    cur_cycle_steps s' = IZR first * mult ^ n /\
    0 <= step_in_cycle s' < cur_cycle_steps s' + 1 /\
    last_epoch s' = t /\
    max_lr s' = base_max_lr cfg * gamma cfg ^ n.
Proof.
  intros [Hw0 Hw] Hm Ht.
  assert (Hf' : 0 < IZR first) by (apply IZR_lt; lia).
  assert (Hw' : IZR warmup < IZR first) by now apply IZR_lt.
  assert (Hw0' : 0 <= IZR warmup) by now apply IZR_le.
  assert (Ht' : IZR first <= IZR t) by now apply IZR_le.
  assert (Hi : 0 < / IZR first) by now apply Rinv_0_lt_compat.
  set (x := IZR t / IZR first * (mult - 1) + 1).
  assert (Hq : 1 <= IZR t / IZR first).
  { replace 1 with (IZR first / IZR first) by (field; lra).
    apply fraction_le; assumption. }
  assert (Hx : mult <= x) by (unfold x; nra).
  destruct (pow_bracket mult x Hm ltac:(lra)) as (n & Hlo & Hhi).
  assert (Hn : (1 <= n)%nat).
  { destruct n as [| n]; [simpl in Hhi; lra | lia]. }
  assert (Hpow : 1 <= mult ^ n) by (apply pow_R1_Rle; lra).
  rewrite (step_explicit_log cfg t n s Hm ltac:(lia) (conj Hlo Hhi)).
  set (S := IZR first * (mult ^ n - 1) / (mult - 1)).
  assert (Hd : 0 < / (mult - 1)) by (apply Rinv_0_lt_compat; lra).
  assert (HS0 : 0 <= S).
  { unfold S, Rdiv. apply Rmult_le_pos; [| lra]. apply Rmult_le_pos; lra. }
  assert (HSt : S <= IZR t).
  { assert (H1 : mult ^ n - 1 <= IZR t / IZR first * (mult - 1))
      by (unfold x in Hlo; lra).
    assert (H2 : IZR first * (mult ^ n - 1)
                 <= IZR t * (mult - 1)).
    { replace (IZR t * (mult - 1))
        with (IZR first * (IZR t / IZR first * (mult - 1)))
        by (field; lra).
      apply Rmult_le_compat_l; lra. }
    unfold S, Rdiv.
    replace (IZR t) with (IZR t * (mult - 1) * / (mult - 1)) by (field; lra).
    apply Rmult_le_compat_r; lra. }
  assert (HtS : IZR t < S + IZR first * mult ^ n).
  { assert (H1 : IZR t / IZR first * (mult - 1) < mult * mult ^ n - 1)
      by (unfold x in Hhi; simpl in Hhi; lra).
    assert (H2 : IZR t * (mult - 1) < IZR first * (mult * mult ^ n - 1)).
    { replace (IZR t * (mult - 1))
        with (IZR first * (IZR t / IZR first * (mult - 1)))
        by (field; lra).
      apply Rmult_lt_compat_l; lra. }
    replace (S + IZR first * mult ^ n)
      with (IZR first * (mult * mult ^ n - 1) * / (mult - 1))
      by (unfold S; field; lra).
    replace (IZR t) with (IZR t * (mult - 1) * / (mult - 1)) by (field; lra).
    apply Rmult_lt_compat_r; lra. }
  assert (Hint : IZR (int S) <= S < IZR (int S) + 1).
  { rewrite int_floor by assumption. apply Zfloor_bound. }
  match goal with |- context [apply_lrs cfg ?st] => set (s1 := st) end.
  assert (Hsafe : safe cfg s1).
  { apply safe_inside; [assumption | |]; unfold s1; simpl; fold S; nra. }
  unfold apply_lrs. rewrite (get_lr_value cfg s1 Hsafe).
  exists n. eexists. split; [exact Hn |]. split; [reflexivity |].
  simpl. fold S. repeat split; lra.
Qed.

(** X10.  Under [cycle_mult == 1.], in every state reached from a valid fresh
    instance by implicit calls and explicit calls to step counts, an explicit
    call to a step count [t] returns and sets the position to
    [t % first_cycle_steps] in a cycle of [first_cycle_steps] steps; [cycle]
    becomes [t // first_cycle_steps] when [t >= first_cycle_steps], and is
    left as it was when [t < first_cycle_steps]. *)
Theorem explicit_unit_placement (t : Z) (s : sched) :
  mult = 1 -> (0 <= warmup < first)%Z -> (0 <= t)%Z ->
  reachable cfg (consistent_call cfg) optimizer s ->
  exists s',
    step cfg (Some t) s = (Ok tt, s') /\
    cycle s' = (if (t <? first)%Z then cycle s else t / first)%Z /\
    step_in_cycle s' = IZR (t mod first) /\
    cur_cycle_steps s' = IZR first /\
    last_epoch s' = t.
Proof.
  intros H1 [Hw0 Hw] Ht Hr.
  destruct (steady_reachable cfg optimizer (conj Hw0 Hw) ltac:(lra) s Hr)
    as (c & z & pos & e & P & Hc & Hz & Hpos & Hm).
  specialize (Hm H1). subst z.
  destruct P as (Pc & Pl & Pp & Pe & Px & Pb & Pn).
  assert (Hw' : IZR warmup < IZR first) by now apply IZR_lt.
  assert (Hr' := Z.mod_pos_bound t first ltac:(lia)).
  assert (Hstep : exists s1,
             step cfg (Some t) s = apply_lrs cfg s1 /\
             placed cfg optimizer s1
                    (if (t <? first)%Z then cycle s else t / first)%Z
                    (IZR first) (IZR (t mod first)) t).
  { destruct (Z.ltb_spec t first) as [Hlt | Hge].
    - rewrite step_explicit_first by (rewrite ?Pc; lia).
      eexists. split; [reflexivity |].
      rewrite Z.mod_small by lia. unfold placed; simpl. tauto.
    - rewrite step_explicit_unit by (assumption || lia).
      eexists. split; [reflexivity |].
      unfold placed; simpl. rewrite Pl. tauto. }
  destruct Hstep as (s1 & -> & P1).
  destruct (apply_lrs_placed cfg optimizer s1 _ _ _ _ P1) as [P2 S2].
  destruct S2 as [R2 _].
  { destruct P1 as (_ & Hl & Hp & _).
    apply safe_inside; rewrite ?Hl, ?Hp; try lia; try lra.
    apply IZR_le. lia. }
  exists (snd (apply_lrs cfg s1)).
  split; [rewrite <- R2; now destruct (apply_lrs cfg s1) |].
  destruct P2 as (Qc & Ql & Qp & Qe & _). tauto.
Qed.

End CallProperties.

(** ** [add_weight_decay] *)

Lemma string_length_append (a b : string) :
  String.length (a ++ b) = (String.length a + String.length b)%nat.
Proof. induction a as [| c a IH]; simpl; [reflexivity | now rewrite IH]. Qed.

Lemma substring_all (s : string) : substring 0 (String.length s) s = s.
Proof. induction s as [| c s IH]; simpl; [reflexivity | now rewrite IH]. Qed.

Lemma substring_suffix (a b : string) :
  substring (String.length a) (String.length b) (a ++ b) = b.
Proof. induction a as [| c a IH]; simpl; [apply substring_all | exact IH]. Qed.

Lemma substring_drop (n m : nat) (s : string) :
  exists pre, String.length pre = Nat.min n (String.length s) /\
              exists post, s = (pre ++ substring n m s ++ post)%string.
Proof.
  revert s. induction n as [| n IH]; intros s.
  - exists ""%string. split; [reflexivity |]. simpl.
    revert s. induction m as [| m IHm]; intros s.
    + exists s. destruct s; reflexivity.
    + destruct s as [| c s]; [exists ""%string; reflexivity |].
      destruct (IHm s) as (post & Hpost). exists post. simpl. now f_equal.
  - destruct s as [| c s].
    + exists ""%string. split; [reflexivity |]. exists ""%string. reflexivity.
    + destruct (IH s) as (pre & Hlen & post & Hpost).
      exists (String c pre). split; [simpl; now rewrite Hlen |].
      exists post. simpl. now f_equal.
Qed.

(** [endswith] holds exactly of the strings that end in the suffix. *)
Lemma endswith_spec (s suffix : string) :
  endswith s suffix = true <-> exists pre, s = (pre ++ suffix)%string.
Proof.
  unfold endswith. split.
  - intros H. apply andb_true_iff in H. destruct H as [Hlen Heq].
    apply Nat.leb_le in Hlen. apply String.eqb_eq in Heq.
    destruct (substring_drop (String.length s - String.length suffix)
                             (String.length suffix) s)
      as (pre & Hpre & post & Hpost).
    rewrite Heq in Hpost. exists pre.
    assert (Hp : String.length post = 0%nat).
    { assert (Hl := f_equal String.length Hpost).
      rewrite !string_length_append, Hpre in Hl. lia. }
    destruct post; [| discriminate].
    rewrite Hpost at 1. f_equal.
    clear. induction suffix as [| c t IH]; simpl; [reflexivity | now rewrite IH].
  - intros (pre & ->). rewrite string_length_append.
    apply andb_true_iff. split; [apply Nat.leb_le; lia |].
    replace (String.length pre + String.length suffix - String.length suffix)%nat
      with (String.length pre) by lia.
    rewrite substring_suffix. apply String.eqb_refl.
Qed.

Section WeightDecayFacts.

Variable parameter : Type.
Variable shape : parameter -> list nat.
Variable requires_grad : parameter -> bool.

Local Abbreviation rule := (no_decay_rule parameter shape).

(** The trainable parameters that the rule exempts, and those it does not. *)
Local Abbreviation exempted skip :=
  (fun entry : string * parameter =>
     requires_grad (snd entry) && rule skip (fst entry) (snd entry)).
Local Abbreviation decayed skip :=
  (fun entry : string * parameter =>
     requires_grad (snd entry) && negb (rule skip (fst entry) (snd entry))).

Lemma collect_filters (skip : list string) (l : list (string * parameter))
      (decay no_decay : list parameter) :
  fold_left (collect parameter shape requires_grad skip) l (decay, no_decay) =
    (decay ++ map snd (filter (decayed skip) l),
     no_decay ++ map snd (filter (exempted skip) l)).
Proof.
  revert decay no_decay. induction l as [| [name p] l IH]; intros decay no_decay.
  - simpl. now rewrite !app_nil_r.
  - simpl. destruct (requires_grad p); simpl.
    + destruct (rule skip name p); simpl; rewrite IH, <- app_assoc; reflexivity.
    + apply IH.
Qed.

Lemma add_weight_decay_groups_eq (model : list (string * parameter))
      (rate : R) (skip : list string) :
  add_weight_decay parameter shape requires_grad model rate skip =
    [ParamGroup parameter (map snd (filter (exempted skip) model)) 0;
     ParamGroup parameter (map snd (filter (decayed skip) model)) rate].
Proof.
  unfold add_weight_decay. rewrite collect_filters. reflexivity.
Qed.

(** X11.  [add_weight_decay] returns two groups: first, with weight decay 0,
    the trainable parameters that are 1-D, or named [*.bias], or named in
    [skip_list]; then, with the given weight decay, the other trainable
    parameters; both in the order of the model, frozen parameters in
    neither. *)
Theorem add_weight_decay_groups (model : list (string * parameter))
        (rate : R) (skip : list string) :
  add_weight_decay parameter shape requires_grad model rate skip =
    [ParamGroup parameter (map snd (filter (exempted skip) model)) 0;
     ParamGroup parameter (map snd (filter (decayed skip) model)) rate].
Proof. apply add_weight_decay_groups_eq. Qed.

Lemma filter_split_permutation {A : Type} (f g : A -> bool) (l : list A) :
  Permutation (filter (fun a => g a && f a) l
               ++ filter (fun a => g a && negb (f a)) l)
              (filter g l).
Proof.
  induction l as [| a l IH]; simpl; [constructor |].
  destruct (g a), (f a); simpl.
  - now constructor.
  - apply Permutation_sym, Permutation_cons_app, Permutation_sym, IH.
  - exact IH.
  - exact IH.
Qed.

(** X12.  Every trainable parameter of the model is in exactly one of the two
    groups, as often as the model has it, and no frozen parameter is in
    any: the two groups together are a permutation of the trainable
    parameters. *)
Theorem add_weight_decay_partition (model : list (string * parameter))
        (rate : R) (skip : list string) :
  exists no_decay decay,
    add_weight_decay parameter shape requires_grad model rate skip =
      [ParamGroup parameter no_decay 0; ParamGroup parameter decay rate] /\
    Permutation (no_decay ++ decay)
                (map snd (filter (fun entry => requires_grad (snd entry))
                                 model)).
Proof.
  unfold add_weight_decay. rewrite collect_filters. simpl.
  eexists. eexists. split; [reflexivity |].
  rewrite <- map_app. apply Permutation_map.
  apply (filter_split_permutation
           (fun entry => rule skip (fst entry) (snd entry))
           (fun entry => requires_grad (snd entry))).
Qed.

(** X13.  A trainable parameter whose name ends in [.bias] is in the group
    without weight decay, and in the other group only if the model has the
    same parameter under a name that the rule does not exempt. *)
Theorem bias_not_decayed (model : list (string * parameter)) (rate : R)
        (skip : list string) (prefix : string) (p : parameter) :
  In ((prefix ++ ".bias")%string, p) model -> requires_grad p = true ->
  exists no_decay decay,
    add_weight_decay parameter shape requires_grad model rate skip =
      [ParamGroup parameter no_decay 0; ParamGroup parameter decay rate] /\
    In p no_decay /\
    (In p decay ->
     exists name, In (name, p) model /\ rule skip name p = false).
Proof.
  intros Hin Hgrad. rewrite add_weight_decay_groups_eq.
  eexists. eexists. split; [reflexivity |]. split.
  - apply in_map_iff. exists ((prefix ++ ".bias")%string, p).
    split; [reflexivity |]. apply filter_In. split; [assumption |].
    simpl. rewrite Hgrad. unfold no_decay_rule.
    assert (Hend : endswith (prefix ++ ".bias") ".bias" = true)
      by (apply endswith_spec; now exists prefix).
    rewrite Hend. simpl. now rewrite orb_true_r.
  - intros Hd. apply in_map_iff in Hd. destruct Hd as ([name q] & Hq & Hf).
    simpl in Hq. subst q. apply filter_In in Hf. destruct Hf as [Hm Hr].
    simpl in Hr. apply andb_true_iff in Hr. destruct Hr as [_ Hr].
    exists name. split; [assumption |]. now apply negb_true_iff.
Qed.

End WeightDecayFacts.

(** ** [load_weights] *)

Section LoadWeightsFacts.

Variable tensor : Type.
Variable module : Type.
Variable get_state_dict : module -> state_dict tensor.
Variable load_state_dict : module -> state_dict tensor -> module.

Local Abbreviation dict := (state_dict tensor).

(** The entry of the model after the update: the checkpoint's value for a
    key the checkpoint has, the model's own otherwise. *)
Local Abbreviation overridden weights :=
  (fun kv : string * tensor =>
     (fst kv, match dict_get tensor (fst kv) weights with
              | Some v => v
              | None => snd kv
              end)).

Lemma dict_contains_In (k : string) (d : dict) :
  dict_contains tensor k d = true <-> In k (map fst d).
Proof.
  unfold dict_contains. rewrite existsb_exists. split.
  - intros ([k' v] & Hin & Heq). apply String.eqb_eq in Heq. simpl in Heq.
    subst k'. apply in_map_iff. now exists (k, v).
  - intros H. apply in_map_iff in H. destruct H as ([k' v] & Hk & Hin).
    simpl in Hk. subst k'. exists (k, v). split; [assumption |].
    apply String.eqb_refl.
Qed.

Lemma dict_get_None (k : string) (d : dict) :
  ~ In k (map fst d) -> dict_get tensor k d = None.
Proof.
  induction d as [| [k' v] d IH]; simpl; intros H; [reflexivity |].
  destruct (String.eqb_spec k k') as [-> | _]; [tauto |].
  apply IH. tauto.
Qed.

(** Assigning to a key of a dict replaces the value of that key. *)
Lemma dict_set_present (k : string) (v : tensor) (d : dict) :
  NoDup (map fst d) -> In k (map fst d) ->
  dict_set tensor k v d =
    map (fun kv => if String.eqb k (fst kv) then (fst kv, v) else kv) d.
Proof.
  induction d as [| [k' v'] d IH]; simpl; intros Hnd Hin; [contradiction |].
  inversion Hnd as [| ? ? Hk' Hnd']; subst.
  destruct (String.eqb_spec k k') as [-> | Hne].
  - f_equal. symmetry. rewrite <- (map_id d) at 2. apply map_ext_in.
    intros [k2 v2] H2. simpl.
    destruct (String.eqb_spec k' k2) as [-> | _]; [| reflexivity].
    exfalso. apply Hk'. apply in_map_iff. now exists (k2, v2).
  - f_equal. apply IH; [assumption |]. destruct Hin; [congruence | assumption].
Qed.

Lemma dict_update_matching (weights d : dict) (keys : list string) :
  NoDup (map fst weights) -> NoDup (map fst d) -> map fst d = keys ->
  fold_left (fun acc kv => dict_set tensor (fst kv) (snd kv) acc)
            (filter (fun kv => existsb (String.eqb (fst kv)) keys) weights) d
  = map (overridden weights) d.
Proof.
  revert d. induction weights as [| [k v] w IH]; intros d Hw Hd Hkeys.
  - simpl. rewrite <- (map_id d) at 1. apply map_ext. now intros [k v].
  - simpl in Hw. apply NoDup_cons_iff in Hw. destruct Hw as [Hk Hw'].
    simpl filter.
    destruct (existsb (String.eqb k) keys) eqn:Hmem; simpl.
    + assert (Hin : In k (map fst d)).
      { rewrite Hkeys. apply existsb_exists in Hmem.
        destruct Hmem as (k' & Hin & Heq).
        apply String.eqb_eq in Heq. now subst k'. }
      rewrite dict_set_present by assumption.
      set (d1 := map (fun kv => if String.eqb k (fst kv) then (fst kv, v)
                                else kv) d).
      assert (Hk1 : map fst d1 = map fst d).
      { unfold d1. rewrite map_map. apply map_ext. intros [k2 v2]. simpl.
        now destruct (String.eqb k k2). }
      rewrite IH; try assumption; [| now rewrite Hk1 | now rewrite Hk1].
      unfold d1. rewrite map_map. apply map_ext. intros [k2 v2]. simpl.
      destruct (String.eqb_spec k k2) as [<- | Hne]; simpl.
      * rewrite String.eqb_refl. now rewrite (dict_get_None k w Hk).
      * destruct (String.eqb_spec k2 k) as [-> | _]; [congruence | reflexivity].
    + rewrite IH by assumption. apply map_ext_in. intros [k2 v2] H2. simpl.
      destruct (String.eqb_spec k2 k) as [-> | _]; [| reflexivity].
      exfalso. assert (Hin : In k keys).
      { rewrite <- Hkeys. apply in_map_iff. now exists (k, v2). }
      assert (Hex : existsb (String.eqb k) keys = true).
      { apply existsb_exists. exists k. split; [assumption |].
        apply String.eqb_refl. }
      congruence.
Qed.

Lemma matching_weights_keys (weights d : dict) :
  matching_weights tensor weights d =
    filter (fun kv => existsb (String.eqb (fst kv)) (map fst d)) weights.
Proof.
  unfold matching_weights. apply filter_ext. intros [k v]. simpl.
  unfold dict_contains. induction d as [| kv d IH]; simpl;
    [reflexivity | now rewrite IH].
Qed.

Lemma merged_overridden (weights d : dict) :
  NoDup (map fst weights) -> NoDup (map fst d) ->
  dict_update tensor d (matching_weights tensor weights d) =
    map (overridden weights) d.
Proof.
  intros Hw Hd. unfold dict_update. rewrite matching_weights_keys.
  now apply dict_update_matching.
Qed.

(** X14.  [load_weights] hands [load_state_dict] the state dict of the model
    itself, key for key in the same order, where every key that the
    checkpoint has carries the checkpoint's value and every other key its
    own; keys of the checkpoint that the model lacks are dropped. *)
Theorem load_weights_overrides (model : module) (weights : dict) :
  NoDup (map fst weights) -> NoDup (map fst (get_state_dict model)) ->
  load_weights tensor module get_state_dict load_state_dict model weights =
    load_state_dict model (map (overridden weights) (get_state_dict model)).
Proof.
  intros Hw Hd. unfold load_weights. now rewrite merged_overridden.
Qed.

(** X15.  The state dict that [load_weights] builds has exactly the keys of
    the model, whatever the checkpoint holds, and a checkpoint that shares
    no key with the model leaves it as it is. *)
Theorem load_weights_keys (model_dict weights : dict) :
  NoDup (map fst weights) -> NoDup (map fst model_dict) ->
  let merged :=
    dict_update tensor model_dict (matching_weights tensor weights model_dict)
  in
  map fst merged = map fst model_dict /\
  ((forall k, In k (map fst weights) -> ~ In k (map fst model_dict)) ->
   merged = model_dict).
Proof.
  intros Hw Hd merged. unfold merged. rewrite merged_overridden by assumption.
  split.
  - rewrite map_map. reflexivity.
  - intros Hdis. rewrite <- (map_id model_dict) at 2. apply map_ext_in.
    intros [k v] Hin. simpl. rewrite dict_get_None; [reflexivity |].
    intros Hk. apply (Hdis k Hk). apply in_map_iff. now exists (k, v).
Qed.

(** X16.  Loading the same checkpoint into the merged state dict again changes
    nothing. *)
Theorem load_weights_idempotent (model_dict weights : dict) :
  NoDup (map fst weights) -> NoDup (map fst model_dict) ->
  let merge d := dict_update tensor d (matching_weights tensor weights d) in
  merge (merge model_dict) = merge model_dict.
Proof.
  intros Hw Hd merge. unfold merge.
  rewrite (merged_overridden weights model_dict) by assumption.
  rewrite merged_overridden; [| assumption | now rewrite map_map].
  rewrite map_map. apply map_ext. intros [k v]. simpl.
  now destruct (dict_get tensor k weights).
Qed.

End LoadWeightsFacts.

(** ** [one_hot_encode] *)

Section OneHotFacts.

Lemma total_scatter (fill confidence : R) (index : Z) (n start : nat) :
  total (map (fun j => if (Z.of_nat j =? index)%Z then confidence else fill)
             (seq start n)) =
    if ((Z.of_nat start <=? index) && (index <? Z.of_nat (start + n)))%Z
    then confidence + (INR n - 1) * fill
    else INR n * fill.
Proof.
  revert start. induction n as [| n IH]; intros start.
  - simpl. rewrite Nat.add_0_r.
    destruct (Z.leb_spec (Z.of_nat start) index),
             (Z.ltb_spec index (Z.of_nat start)); simpl; try lra; lia.
  - change (seq start (S n)) with (start :: seq (S start) n).
    cbn [map total]. rewrite IH, S_INR.
    replace (S start + n)%nat with (start + S n)%nat by lia.
    destruct (Z.eqb_spec (Z.of_nat start) index) as [He | Hne];
      destruct (Z.leb_spec (Z.of_nat (S start)) index);
      destruct (Z.leb_spec (Z.of_nat start) index);
      destruct (Z.ltb_spec index (Z.of_nat (start + S n)));
      simpl; try lra; lia.
Qed.

Lemma scatter_row_nth (classes : nat) (fill confidence : R) (index : Z)
      (j : nat) :
  (j < classes)%nat ->
  nth j (scatter_row classes fill confidence index) 0 =
    if (Z.of_nat j =? index)%Z then confidence else fill.
Proof.
  intros Hj. unfold scatter_row.
  set (f := fun j => if (Z.of_nat j =? index)%Z then confidence else fill).
  rewrite (nth_indep _ 0 (f 0%nat))
    by (rewrite length_map, length_seq; exact Hj).
  rewrite (map_nth f), seq_nth by exact Hj. reflexivity.
Qed.

(** X17.  The assertion is the first thing checked: [one_hot_encode] raises
    [AssertionError] exactly when [smoothing] is outside [0, 1), whatever
    the labels and the number of classes. *)
Theorem one_hot_assertion (true_labels : labels) (classes : Z)
        (smoothing : R) :
  one_hot_encode true_labels classes smoothing = Failed Assertion_failed <->
  ~ (0 <= smoothing < 1).
Proof.
  unfold one_hot_encode.
  destruct (Rle_dec 0 smoothing) as [H0 | H0];
    [| split; [intros _; lra | reflexivity]].
  destruct (Rlt_dec smoothing 1) as [H1 | H1];
    [| split; [intros _; lra | reflexivity]].
  split; [| intros H; exfalso; apply H; split; assumption].
  intros H. exfalso.
  destruct true_labels as [indices | cols rows];
    [| destruct (Z.of_nat cols =? classes)%Z; [discriminate |];
       destruct rows as [| row rows]];
    destruct (classes <? 0)%Z; try discriminate;
    destruct (classes =? 1)%Z; try discriminate;
    simpl in H; try discriminate;
    destruct (forallb _ indices); discriminate.
Qed.

(** X18.  For class indices that all lie in [0, classes), with at least two
    classes and a valid [smoothing], [one_hot_encode] returns one row per
    label: [classes] entries, [1 - smoothing] at the label and
    [smoothing / (classes - 1)] elsewhere, which sum to 1. *)
Theorem one_hot_indices (indices : list Z) (classes : Z) (smoothing : R) :
  0 <= smoothing < 1 -> (2 <= classes)%Z ->
  Forall (fun i => (0 <= i < classes)%Z) indices ->
  exists rows,
    one_hot_encode (ClassIndices indices) classes smoothing = Returned rows /\
    Forall2
      (fun i row =>
         length row = Z.to_nat classes /\
         nth (Z.to_nat i) row 0 = 1 - smoothing /\
         (forall j, (j < Z.to_nat classes)%nat -> j <> Z.to_nat i ->
                    nth j row 0 = smoothing / IZR (classes - 1)) /\
         total row = 1)
      indices rows.
Proof.
  intros [H0 H1] Hc Hin. unfold one_hot_encode.
  destruct (Rle_dec 0 smoothing) as [_ | Hn]; [| contradiction].
  destruct (Rlt_dec smoothing 1) as [_ | Hn]; [| contradiction].
  destruct (Z.ltb_spec classes 0) as [Hneg | _]; [lia |].
  destruct (Z.eqb_spec classes 1) as [Hone | _]; [lia |].
  assert (Hall : forallb (fun i => (0 <=? i)%Z && (i <? classes)%Z) indices
                 = true).
  { apply forallb_forall. intros i Hi.
    rewrite Forall_forall in Hin. specialize (Hin i Hi).
    apply andb_true_iff. split; [apply Z.leb_le | apply Z.ltb_lt]; lia. }
  rewrite Hall. eexists. split; [reflexivity |].
  induction Hin as [| i indices Hi _ IH]; simpl; constructor.
  - split; [unfold scatter_row; now rewrite length_map, length_seq |].
    split; [| split].
    + rewrite scatter_row_nth by lia. rewrite Z2Nat.id by lia.
      now rewrite Z.eqb_refl.
    + intros j Hj Hne. rewrite scatter_row_nth by exact Hj.
      destruct (Z.eqb_spec (Z.of_nat j) i) as [He | _]; [| reflexivity].
      exfalso. apply Hne. rewrite <- He. now rewrite Nat2Z.id.
    + unfold scatter_row. rewrite total_scatter. simpl Nat.add.
      destruct (Z.leb_spec (Z.of_nat 0) i) as [_ | Hlt]; [| simpl in Hlt; lia].
      destruct (Z.ltb_spec i (Z.of_nat (Z.to_nat classes))) as [_ | Hge];
        [| lia].
      simpl. rewrite INR_IZR_INZ, Z2Nat.id by lia.
      rewrite minus_IZR. field.
      assert (Hc' : IZR 2 <= IZR classes) by now apply IZR_le. lra.
  - apply IH.
    simpl in Hall. apply andb_true_iff in Hall. now destruct Hall.
Qed.

(** X19.  With a valid [smoothing], class indices fail in two ways only:
    [ZeroDivisionError] exactly when [classes = 1], and a [RuntimeError]
    exactly when [classes] is negative, or is not 1 and some label lies
    outside [0, classes). *)
Theorem one_hot_indices_errors (indices : list Z) (classes : Z)
        (smoothing : R) :
  0 <= smoothing < 1 ->
  (one_hot_encode (ClassIndices indices) classes smoothing
   = Failed Division_by_zero <-> classes = 1%Z) /\
  (one_hot_encode (ClassIndices indices) classes smoothing
   = Failed Runtime_error <->
   (classes < 0)%Z \/
   (classes <> 1%Z /\ exists i, In i indices /\ ~ (0 <= i < classes)%Z)).
Proof.
  intros [H0 H1]. unfold one_hot_encode.
  destruct (Rle_dec 0 smoothing) as [_ | Hn]; [| contradiction].
  destruct (Rlt_dec smoothing 1) as [_ | Hn]; [| contradiction].
  destruct (Z.ltb_spec classes 0) as [Hneg | Hpos].
  { split; split; intros H; try discriminate; try reflexivity;
      try (exfalso; lia). now left. }
  destruct (Z.eqb_spec classes 1) as [Hone | Hone].
  { split; split; intros H; try discriminate; try reflexivity;
      try assumption.
    destruct H as [Hlt | [Hne _]]; [lia | contradiction]. }
  destruct (forallb (fun i => (0 <=? i)%Z && (i <? classes)%Z) indices)
    eqn:Hall.
  - split; split; intros H; try discriminate; try contradiction.
    destruct H as [Hlt | (_ & i & Hi & Hout)]; [lia |].
    rewrite forallb_forall in Hall. specialize (Hall i Hi).
    apply andb_true_iff in Hall. destruct Hall as [Ha Hb].
    apply Z.leb_le in Ha. apply Z.ltb_lt in Hb. lia.
  - split; split; intros H; try discriminate; try contradiction;
      try reflexivity.
    right. split; [assumption |].
    assert (Hex : exists i, In i indices /\
                   ((0 <=? i)%Z && (i <? classes)%Z) = false).
    { clear -Hall. induction indices as [| i l IH]; simpl in Hall;
        [discriminate |].
      destruct ((0 <=? i)%Z && (i <? classes)%Z) eqn:Hi.
      - destruct (IH Hall) as (j & Hj & Hout). exists j.
        split; [now right | assumption].
      - exists i. split; [now left | assumption]. }
    destruct Hex as (i & Hi & Hout). exists i. split; [assumption |].
    apply andb_false_iff in Hout.
    destruct Hout as [Ha | Hb];
      [apply Z.leb_gt in Ha | apply Z.ltb_ge in Hb]; lia.
Qed.

Lemma where_one_hot (classes : nat) (denominator : R) (index : Z) :
  where_one (1 - 0) 0 (scatter_row classes (0 / denominator) (1 - 0) index)
  = scatter_row classes (0 / denominator) (1 - 0) index.
Proof.
  unfold where_one, scatter_row. rewrite map_map. apply map_ext. intros j.
  destruct (Z.of_nat j =? index)%Z.
  - destruct (Req_dec_T (1 - 0) 1) as [_ | Hn]; [reflexivity | lra].
  - destruct (Req_dec_T (0 / denominator) 1) as [He | _].
    + unfold Rdiv in He. rewrite Rmult_0_l in He. lra.
    + unfold Rdiv. now rewrite Rmult_0_l.
Qed.

(** X20.  Without smoothing the encoding of class indices is left unchanged
    by a second pass: if [one_hot_encode] with [smoothing = 0] returns
    [rows] for class indices, it returns the same [rows] when given [rows]
    as a 2-D tensor. *)
Theorem one_hot_round_trip (indices : list Z) (classes : Z)
        (rows : list (list R)) :
  one_hot_encode (ClassIndices indices) classes 0 = Returned rows ->
  one_hot_encode (Dense (Z.to_nat classes) rows) classes 0 = Returned rows.
Proof.
  unfold one_hot_encode.
  destruct (Rle_dec 0 0) as [_ | Hn]; [| lra].
  destruct (Rlt_dec 0 1) as [_ | Hn]; [| lra].
  destruct (Z.ltb_spec classes 0) as [Hneg | Hpos]; [discriminate |].
  destruct (classes =? 1)%Z; [discriminate |].
  destruct (forallb _ indices); [| discriminate].
  intros H. inversion H; subst; clear H.
  rewrite Z2Nat.id by assumption. rewrite Z.eqb_refl.
  f_equal. rewrite map_map. apply map_ext. intros i.
  apply where_one_hot.
Qed.

Lemma total_where_one (confidence smoothing : R) (row : list R) :
  total (where_one confidence smoothing row) =
    INR (count_occ Req_dec_T row 1) * confidence
    + INR (length row - count_occ Req_dec_T row 1) * smoothing.
Proof.
  unfold where_one. induction row as [| x row IH]; [simpl; lra |].
  cbn [map total count_occ length].
  assert (Hle := count_occ_bound Req_dec_T 1 row).
  destruct (Req_dec_T x 1) as [_ | _]; rewrite IH.
  - rewrite S_INR. cbn [Nat.sub]. lra.
  - replace (S (length row) - count_occ Req_dec_T row 1%R)%nat
      with (S (length row - count_occ Req_dec_T row 1%R)) by lia.
    rewrite S_INR. lra.
Qed.

(** X21.  For a 2-D tensor with [classes] columns, [one_hot_encode] returns
    row for row [1 - smoothing] where the entry is 1 and [smoothing]
    elsewhere; a row with [k] entries equal to 1 gets the sum
    [k * (1 - smoothing) + (length - k) * smoothing], so a one-hot row of
    more than two classes does not sum to 1 once [smoothing > 0]. *)
Theorem one_hot_dense_rows (cols : nat) (rows : list (list R))
        (smoothing : R) :
  0 <= smoothing < 1 ->
  exists out,
    one_hot_encode (Dense cols rows) (Z.of_nat cols) smoothing = Returned out /\
    Forall2
      (fun row o =>
         length o = length row /\
         total o =
           INR (count_occ Req_dec_T row 1) * (1 - smoothing)
           + INR (length row - count_occ Req_dec_T row 1) * smoothing)
      rows out.
Proof.
  intros [H0 H1]. unfold one_hot_encode.
  destruct (Rle_dec 0 smoothing) as [_ | Hn]; [| contradiction].
  destruct (Rlt_dec smoothing 1) as [_ | Hn]; [| contradiction].
  rewrite Z.eqb_refl. eexists. split; [reflexivity |].
  induction rows as [| row rows IH]; simpl; constructor; [| exact IH].
  split; [unfold where_one; apply length_map | apply total_where_one].
Qed.

End OneHotFacts.

(** ** Default column names and shuffle options *)

Lemma class_name_injective (a b : string) :
  ("Class " ++ a)%string = ("Class " ++ b)%string -> a = b.
Proof. simpl. intros H. now inversion H. Qed.

Lemma firstn_incl {A : Type} (n : nat) (l : list A) (a : A) :
  In a (firstn n l) -> In a l.
Proof.
  revert n. induction l as [| b l IH]; intros [| n]; simpl; try tauto.
  intros [H | H]; [now left | right; now apply (IH n)].
Qed.

Lemma NoDup_firstn {A : Type} (n : nat) (l : list A) :
  NoDup l -> NoDup (firstn n l).
Proof.
  revert n. induction l as [| a l IH]; intros [| n] H; simpl;
    try constructor.
  - inversion H; subst. intros Hin. apply firstn_incl in Hin. contradiction.
  - inversion H; subst. now apply IH.
Qed.

Lemma NoDup_map_injective {A B : Type} (f : A -> B) (l : list A) :
  (forall a b, f a = f b -> a = b) -> NoDup l -> NoDup (map f l).
Proof.
  intros Hinj. induction 1 as [| a l Hin _ IH]; simpl; constructor;
    [| exact IH].
  intros H. apply in_map_iff in H. destruct H as (b & Hb & Hl).
  apply Hinj in Hb. now subst.
Qed.

Lemma ascii_uppercase_NoDup : NoDup ascii_uppercase.
Proof.
  assert (H : nodup string_dec ascii_uppercase = ascii_uppercase)
    by (vm_compute; reflexivity).
  rewrite <- H. apply NoDup_nodup.
Qed.

(** The letter at index [i] of [ascii_uppercase] has the character code
    [65 + i]. *)
Lemma ascii_uppercase_nth (i : nat) :
  (i < 26)%nat ->
  nth i ascii_uppercase EmptyString
  = String (ascii_of_nat (65 + i)) EmptyString.
Proof.
  intros Hi. do 26 (destruct i as [| i]; [reflexivity |]). lia.
Qed.

(** X22.  The default column names of [plot_confusion_matrix] are one for each
    distinct target, but never more than the 26 of the alphabet; the name
    at index [i] is ['Class '] followed by the [i]-th capital letter, the
    character of code [65 + i]: ['Class A'], ['Class B'] and so on, in this
    order; the names are pairwise different. *)
Theorem default_columns_count (targets : list Z) :
  length (default_columns targets)
  = Nat.min (length (nodup Z.eq_dec targets)) 26 /\
  (forall i, (i < length (default_columns targets))%nat ->
   nth i (default_columns targets) EmptyString
   = ("Class " ++ String (ascii_of_nat (65 + i)) EmptyString)%string) /\
  NoDup (default_columns targets).
Proof.
  assert (Hlen : length (default_columns targets)
                 = Nat.min (length (nodup Z.eq_dec targets)) 26).
  { unfold default_columns. rewrite length_map, length_firstn. reflexivity. }
  split; [exact Hlen |]. split.
  - intros i Hi. rewrite Hlen in Hi. unfold default_columns.
    set (f := fun i : string => ("Class " ++ i)%string).
    rewrite (nth_indep _ EmptyString (f EmptyString))
      by (rewrite length_map, length_firstn; exact Hi).
    rewrite (map_nth f), nth_firstn.
    destruct (Nat.ltb_spec i (length (nodup Z.eq_dec targets))) as [_ | Hge];
      [| lia].
    rewrite ascii_uppercase_nth by lia. reflexivity.
  - unfold default_columns.
    apply NoDup_map_injective; [apply class_name_injective |].
    apply NoDup_firstn, ascii_uppercase_NoDup.
Qed.

(** X23.  [split_data] never hands its splitter a [random_state] without
    [shuffle]: a given [random_state] is kept and switches [shuffle] on, and
    [shuffle] without a [random_state] gets the seed 42. *)
Theorem shuffle_options_consistent (shuffle : bool)
        (random_state : option Z) :
  let (shuffle', random_state') := shuffle_options shuffle random_state in
  (shuffle' = true <-> random_state' <> None) /\
  (forall seed, random_state = Some seed -> random_state' = Some seed) /\
  (random_state = None ->
   shuffle' = shuffle /\
   random_state' = if shuffle then Some 42%Z else None).
Proof.
  unfold shuffle_options.
  destruct random_state as [seed |]; [| destruct shuffle];
    repeat split; try congruence; try discriminate; try reflexivity.
Qed.

(** ** [NonSparseCrossEntropyLoss.forward] *)

Section CrossEntropyFacts.

Lemma range_sum_ext (n : nat) (f g : nat -> R) :
  (forall k, (k < n)%nat -> f k = g k) -> range_sum n f = range_sum n g.
Proof.
  induction n as [| n IH]; intros H; simpl; [reflexivity |].
  rewrite IH by (intros k Hk; apply H; lia). rewrite H by lia. reflexivity.
Qed.

Lemma range_sum_scale (n : nat) (c : R) (f : nat -> R) :
  range_sum n (fun k => c * f k) = c * range_sum n f.
Proof. induction n as [| n IH]; simpl; [lra | rewrite IH; ring]. Qed.

Lemma range_sum_nonneg (n : nat) (f : nat -> R) :
  (forall k, (k < n)%nat -> 0 <= f k) -> 0 <= range_sum n f.
Proof.
  induction n as [| n IH]; intros H; simpl; [lra |].
  assert (H1 : 0 <= range_sum n f) by (apply IH; intros k Hk; apply H; lia).
  assert (H2 := H n ltac:(lia)). lra.
Qed.

Lemma range_sum_nonpos (n : nat) (f : nat -> R) :
  (forall k, (k < n)%nat -> f k <= 0) -> range_sum n f <= 0.
Proof.
  induction n as [| n IH]; intros H; simpl; [lra |].
  assert (H1 : range_sum n f <= 0) by (apply IH; intros k Hk; apply H; lia).
  assert (H2 := H n ltac:(lia)). lra.
Qed.

(** Every exponential is below the sum of all of them. *)
Lemma exp_below_sum (C : nat) (row : nat -> R) (j : nat) :
  (j < C)%nat -> exp (row j) <= range_sum C (fun k => exp (row k)).
Proof.
  induction C as [| C IH]; intros Hj; [lia |]. simpl.
  assert (Hpos : 0 <= range_sum C (fun k => exp (row k))).
  { apply range_sum_nonneg. intros k _. left. apply exp_pos. }
  destruct (Nat.eq_dec j C) as [-> | Hne]; [lra |].
  assert (H1 := IH ltac:(lia)). assert (H2 := exp_pos (row C)). lra.
Qed.

Lemma log_softmax_nonpos (C : nat) (row : nat -> R) (j : nat) :
  (j < C)%nat -> log_softmax C row j <= 0.
Proof.
  intros Hj. unfold log_softmax.
  assert (Hle := exp_below_sum C row j Hj).
  assert (Hpos := exp_pos (row j)).
  assert (Hln : row j <= ln (range_sum C (fun k => exp (row k)))).
  { rewrite <- (ln_exp (row j)).
    destruct Hle as [Hlt | <-]; [left; now apply ln_increasing | lra]. }
  lra.
Qed.

Lemma log_softmax_shift (C : nat) (row : nat -> R) (c : R) (j : nat) :
  (j < C)%nat ->
  log_softmax C (fun k => row k + c) j = log_softmax C row j.
Proof.
  intros Hj. unfold log_softmax.
  assert (Hsum : 0 < range_sum C (fun k => exp (row k))).
  { assert (H1 := exp_below_sum C row j Hj).
    assert (H2 := exp_pos (row j)). lra. }
  rewrite (range_sum_ext C (fun k => exp (row k + c))
             (fun k => exp c * exp (row k)))
    by (intros k _; rewrite exp_plus; ring).
  rewrite range_sum_scale, ln_mult, ln_exp by (assumption || apply exp_pos).
  ring.
Qed.

Lemma sample_loss_shift (C : nat) (weight : option (nat -> R))
      (input target : nat -> R) (c : R) :
  sample_loss C weight (fun k => input k + c) target
  = sample_loss C weight input target.
Proof.
  unfold sample_loss. f_equal. apply range_sum_ext. intros j Hj.
  destruct weight; now rewrite log_softmax_shift.
Qed.

Lemma sample_loss_nonneg (C : nat) (weight : option (nat -> R))
      (input target : nat -> R) :
  (forall j, (j < C)%nat -> 0 <= target j) ->
  (forall w j, weight = Some w -> (j < C)%nat -> 0 <= w j) ->
  0 <= sample_loss C weight input target.
Proof.
  intros Ht Hw. unfold sample_loss.
  assert (H : range_sum C
                (fun j => target j *
                          match weight with
                          | Some w => log_softmax C input j * w j
                          | None => log_softmax C input j
                          end) <= 0); [| lra].
  apply range_sum_nonpos. intros j Hj.
  assert (H1 := Ht j Hj). assert (H2 := log_softmax_nonpos C input j Hj).
  destruct weight as [w |].
  - assert (H3 := Hw w j eq_refl Hj).
    assert (H4 : 0 <= target j * w j) by now apply Rmult_le_pos.
    replace (target j * (log_softmax C input j * w j))
      with (log_softmax C input j * (target j * w j)) by ring.
    nra.
  - nra.
Qed.

(** X24.  The loss does not change when a constant, one for each sample, is
    added to all the logits of the sample, whatever the weights and the
    reduction. *)
Theorem forward_shift_invariant (weight : option (nat -> R))
        (reduction : string) (N C : nat) (inputs targets : nat -> nat -> R)
        (shift : nat -> R) :
  forward weight reduction N C (fun i j => inputs i j + shift i) targets
  = forward weight reduction N C inputs targets.
Proof.
  unfold forward.
  assert (Hsum : range_sum N
                   (fun i => sample_loss C weight
                               (fun j => inputs i j + shift i) (targets i))
                 = range_sum N
                     (fun i => sample_loss C weight (inputs i) (targets i))).
  { apply range_sum_ext. intros i _. apply sample_loss_shift. }
  rewrite Hsum.
  destruct (String.eqb reduction "sum"); [reflexivity |].
  destruct (String.eqb reduction "mean"); [reflexivity |].
  f_equal. apply map_ext. intros i. apply sample_loss_shift.
Qed.

(** X25.  For finite logits, with targets and class weights that are not
    negative, no number that [forward] returns is negative: neither the
    sum, nor the mean, nor the loss of any sample, of which there is one
    per sample. *)
Theorem forward_nonnegative (weight : option (nat -> R)) (reduction : string)
        (N C : nat) (inputs targets : nat -> nat -> R) :
  (forall i j, (i < N)%nat -> (j < C)%nat -> 0 <= targets i j) ->
  (forall w j, weight = Some w -> (j < C)%nat -> 0 <= w j) ->
  (forall x,
     forward weight reduction N C inputs targets = Scalar x -> 0 <= x) /\
  (forall losses,
     forward weight reduction N C inputs targets = PerSample losses ->
     length losses = N /\ Forall (fun x => 0 <= x) losses) /\
  ((0 < N)%nat ->
   (reduction = "sum"%string \/ reduction = "mean"%string) ->
   exists x,
     forward weight reduction N C inputs targets = Scalar x /\ 0 <= x).
Proof.
  intros Ht Hw. unfold forward.
  assert (Hrow : forall i, (i < N)%nat ->
             0 <= sample_loss C weight (inputs i) (targets i)).
  { intros i Hi. apply sample_loss_nonneg; [| exact Hw].
    intros j Hj. now apply Ht. }
  assert (Hsum : 0 <= range_sum N
                        (fun i => sample_loss C weight (inputs i) (targets i)))
    by now apply range_sum_nonneg.
  assert (Hmean : forall n, N = S n ->
             0 <= range_sum N
                    (fun i => sample_loss C weight (inputs i) (targets i))
                  / INR N).
  { intros n Hn.
    assert (Hpos : 0 < INR N) by (apply lt_0_INR; lia).
    apply Rmult_le_pos; [exact Hsum |]. left. now apply Rinv_0_lt_compat. }
  destruct (String.eqb_spec reduction "sum") as [Es | Es].
  { split; [| split].
    - intros x Hx. inversion Hx; subst x. exact Hsum.
    - intros losses Hl. discriminate Hl.
    - intros _ _. eexists. split; [reflexivity | exact Hsum]. }
  destruct (String.eqb_spec reduction "mean") as [Em | Em].
  { destruct N as [| n].
    - split; [| split].
      + intros x Hx. discriminate Hx.
      + intros losses Hl. discriminate Hl.
      + intros HN. lia.
    - split; [| split].
      + intros x Hx. inversion Hx; subst x. now apply (Hmean n).
      + intros losses Hl. discriminate Hl.
      + intros _ _. eexists. split; [reflexivity | now apply (Hmean n)]. }
  split; [| split].
  - intros x Hx. discriminate Hx.
  - intros losses Hl. inversion Hl; subst losses.
    split; [now rewrite length_map, length_seq |].
    apply Forall_forall. intros x Hx. apply in_map_iff in Hx.
    destruct Hx as (i & <- & Hi). apply in_seq in Hi. apply Hrow. lia.
  - intros _ [H | H]; contradiction.
Qed.

Lemma range_sum_single (C k : nat) (v : nat -> R) :
  range_sum C (fun j => (if (j =? k)%nat then 1 else 0) * v j)
  = if (k <? C)%nat then v k else 0.
Proof.
  induction C as [| C IH]; simpl range_sum; [reflexivity |].
  rewrite IH.
  destruct (Nat.eqb_spec C k) as [-> | Hne].
  - destruct (Nat.ltb_spec k k); [lia |].
    destruct (Nat.ltb_spec k (S k)); [lra | lia].
  - destruct (Nat.ltb_spec k C), (Nat.ltb_spec k (S C)); try lia; lra.
Qed.

(** X26.  Without class weights, for one-hot targets (a 1 at the label of the
    sample, 0 elsewhere) the loss of a sample is the negative log-softmax
    of its label, [ln (sum_k exp x_k) - x_label], which the reduction sums,
    averages or returns as it is. *)
Theorem forward_one_hot (reduction : string) (N C : nat)
        (inputs : nat -> nat -> R) (label : nat -> nat) :
  (forall i, (i < N)%nat -> (label i < C)%nat) ->
  let nll i :=
    ln (range_sum C (fun k => exp (inputs i k))) - inputs i (label i) in
  forward None reduction N C inputs
          (fun i j => if (j =? label i)%nat then 1 else 0)
  = if String.eqb reduction "sum" then Scalar (range_sum N nll)
    else if String.eqb reduction "mean" then
      match N with
      | O => Nan
      | S _ => Scalar (range_sum N nll / INR N)
      end
    else PerSample (map nll (seq 0 N)).
Proof.
  intros Hlabel nll. unfold forward.
  assert (Hrow : forall i, (i < N)%nat ->
             sample_loss C None (inputs i)
               (fun j => if (j =? label i)%nat then 1 else 0) = nll i).
  { intros i Hi. unfold sample_loss. rewrite range_sum_single.
    destruct (Nat.ltb_spec (label i) C) as [_ | Hge];
      [| specialize (Hlabel i Hi); lia].
    unfold nll, log_softmax. ring. }
  rewrite (range_sum_ext N _ nll Hrow).
  destruct (String.eqb reduction "sum"); [reflexivity |].
  destruct (String.eqb reduction "mean"); [reflexivity |].
  f_equal. apply map_ext_in. intros i Hi. apply in_seq in Hi.
  apply Hrow. lia.
Qed.

End CrossEntropyFacts.

(** ** The further theorems at concrete inputs *)

Lemma started_safe (cfg : config) (optimizer : list R) (pos : R) :
  (0 <= warmup_steps cfg < first_cycle_steps cfg)%Z -> 0 <= pos ->
  safe cfg (set_step_in_cycle pos (started cfg optimizer)).
Proof.
  intros [Hw0 Hw] Hpos. apply safe_inside; simpl; [lia | lra |].
  apply IZR_lt. lia.
Qed.

Lemma started_is_reachable (cfg : config) (optimizer : list R)
      (allowed : sched -> option Z -> Prop) :
  (warmup_steps cfg < first_cycle_steps cfg)%Z ->
  (0 < first_cycle_steps cfg)%Z ->
  reachable cfg allowed optimizer (started cfg optimizer).
Proof.
  intros Hw Hf. exists (started cfg optimizer).
  split; [now apply fresh_started | apply adv_refl].
Qed.

Lemma explicit_matches_implicit_unit_witness :
  cycle_mult scenario = 1 /\ (0 <= 2 < 10)%Z /\ (0 <= 13)%Z /\
  exists s0 se si,
    fresh scenario one_group = Ok s0 /\
    step scenario (Some 13%Z) s0 = (Ok tt, se) /\
    run scenario (repeat None (Z.to_nat 13)) s0 = (Ok tt, si) /\
    last_epoch se = 13%Z /\ last_epoch si = 13%Z /\
    cycle se = cycle si /\ step_in_cycle se = step_in_cycle si /\
    get_lr scenario se = get_lr scenario si.
Proof.
  split; [reflexivity |]. split; [lia |]. split; [lia |].
  apply (explicit_matches_implicit_unit scenario one_group 13);
    [reflexivity | simpl; lia | lia].
Defined.

Lemma get_lr_within_bounds_witness :
  let s := set_step_in_cycle 1 (started scenario one_group) in
  let lrs := map (lr_value scenario s) (base_lrs s) in
  get_lr scenario s = Ok lrs /\
  (step_in_cycle s = -1 \/ 0 <= step_in_cycle s) /\
  Forall (fun b => b <= max_lr s) (base_lrs s) /\
  Forall2 (fun b r => b <= r <= max_lr s) (base_lrs s) lrs.
Proof.
  intros s lrs.
  assert (H1 : get_lr scenario s = Ok lrs).
  { apply get_lr_value. apply started_safe; [simpl; lia | lra]. }
  assert (H2 : step_in_cycle s = -1 \/ 0 <= step_in_cycle s)
    by (right; simpl; lra).
  assert (H3 : Forall (fun b => b <= max_lr s) (base_lrs s))
    by (repeat constructor; simpl; lra).
  split; [exact H1 |]. split; [exact H2 |]. split; [exact H3 |].
  apply (get_lr_within_bounds scenario s lrs H1 H2 H3).
Defined.

Lemma rate_monotone_in_phase_witness :
  let s := started scenario one_group in
  let lp := map (lr_value scenario (set_step_in_cycle 0 s)) (base_lrs s) in
  let lq := map (lr_value scenario (set_step_in_cycle 1 s)) (base_lrs s) in
  Forall (fun b => b <= max_lr s) (base_lrs s) /\
  get_lr scenario (set_step_in_cycle 0 s) = Ok lp /\
  get_lr scenario (set_step_in_cycle 1 s) = Ok lq /\
  0 <= 1 /\ (0 <= 0 /\ 1 < IZR (warmup_steps scenario)) /\
  Forall2 Rle lp lq.
Proof.
  intros s lp lq.
  assert (H1 : Forall (fun b => b <= max_lr s) (base_lrs s))
    by (repeat constructor; simpl; lra).
  assert (H2 : get_lr scenario (set_step_in_cycle 0 s) = Ok lp).
  { apply (get_lr_value scenario (set_step_in_cycle 0 s)).
    apply started_safe; [simpl; lia | lra]. }
  assert (H3 : get_lr scenario (set_step_in_cycle 1 s) = Ok lq).
  { apply (get_lr_value scenario (set_step_in_cycle 1 s)).
    apply started_safe; [simpl; lia | lra]. }
  assert (H4 : 0 <= 1) by lra.
  assert (H5 : 0 <= 0 /\ 1 < IZR (warmup_steps scenario)) by (simpl; lra).
  split; [exact H1 |]. split; [exact H2 |]. split; [exact H3 |].
  split; [exact H4 |]. split; [exact H5 |].
  apply (proj1 (rate_monotone_in_phase scenario s 0 1 lp lq H1 H2 H3 H4) H5).
Defined.

Lemma rate_at_peak_and_midpoint_witness :
  let s := set_step_in_cycle 2 (started scenario one_group) in
  degenerate scenario s = false /\
  0 <= IZR (warmup_steps scenario) <= step_in_cycle s /\
  cur_cycle_steps s <> IZR (warmup_steps scenario) /\
  get_lr scenario s = Ok (map (fun _ => max_lr s) (base_lrs s)).
Proof.
  intros s.
  assert (H1 : degenerate scenario s = false) by reflexivity.
  assert (H2 : 0 <= IZR (warmup_steps scenario) <= step_in_cycle s)
    by (simpl; lra).
  assert (H3 : cur_cycle_steps s <> IZR (warmup_steps scenario))
    by (simpl; lra).
  split; [exact H1 |]. split; [exact H2 |]. split; [exact H3 |].
  apply (proj1 (rate_at_peak_and_midpoint scenario s H1 H2 H3)).
  reflexivity.
Defined.

Lemma groups_kept_witness :
  reachable scenario any_call one_group (started scenario one_group) /\
  base_lrs (started scenario one_group) = floors scenario one_group /\
  length (param_lrs (started scenario one_group)) = length one_group.
Proof.
  assert (H : reachable scenario any_call one_group
                (started scenario one_group))
    by (apply started_is_reachable; simpl; lia).
  split; [exact H |].
  apply (groups_kept scenario one_group _ H).
Defined.

Lemma implicit_cycle_length_integer_witness :
  reachable shrinking implicit_call one_group (started shrinking one_group) /\
  integral (cur_cycle_steps (started shrinking one_group)).
Proof.
  assert (H : reachable shrinking implicit_call one_group
                (started shrinking one_group))
    by (apply started_is_reachable; simpl; lia).
  split; [exact H |].
  apply (implicit_cycle_length_integer shrinking one_group _ H).
Defined.


Lemma explicit_growing_lands_witness :
  (0 <= 2 < 10)%Z /\ 1 < cycle_mult doubling /\ (10 <= 28)%Z /\
  exists (n : nat) (s' : sched),
    (1 <= n)%nat /\
    step doubling (Some 28%Z) (started doubling one_group) = (Ok tt, s') /\
    cycle s' = Z.of_nat n /\
    cur_cycle_steps s' = IZR 10 * cycle_mult doubling ^ n /\
    0 <= step_in_cycle s' < cur_cycle_steps s' + 1 /\
    last_epoch s' = 28%Z /\
    max_lr s' = base_max_lr doubling * gamma doubling ^ n.
Proof.
  split; [lia |]. split; [simpl; lra |]. split; [lia |].
  apply (explicit_growing_lands doubling 28 (started doubling one_group));
    simpl; [lia | lra | lia].
Defined.

Lemma explicit_unit_placement_witness :
  cycle_mult scenario = 1 /\ (0 <= 2 < 10)%Z /\ (0 <= 13)%Z /\
  reachable scenario (consistent_call scenario) one_group
            (started scenario one_group) /\
  exists s',
    step scenario (Some 13%Z) (started scenario one_group) = (Ok tt, s') /\
    cycle s' = 1%Z /\ step_in_cycle s' = 3 /\ cur_cycle_steps s' = 10 /\
    last_epoch s' = 13%Z.
Proof.
  assert (H : reachable scenario (consistent_call scenario) one_group
                (started scenario one_group))
    by (apply started_is_reachable; simpl; lia).
  split; [reflexivity |]. split; [lia |]. split; [lia |].
  split; [exact H |].
  apply (explicit_unit_placement scenario one_group 13
           (started scenario one_group) eq_refl
           ltac:(simpl; lia) ltac:(lia) H).
Defined.

(** A model of two parameters, a 2-D weight and a 1-D bias, with the
    dimension count standing for the parameter. *)
Lemma bias_not_decayed_witness :
  let shape (p : nat) := repeat 1%nat p in
  let requires_grad (_ : nat) := true in
  let model := [("fc.weight"%string, 2%nat); ("fc.bias"%string, 1%nat)] in
  In (("fc" ++ ".bias")%string, 1%nat) model /\
  requires_grad 1%nat = true /\
  exists no_decay decay,
    add_weight_decay nat shape requires_grad model 0.01 [] =
      [ParamGroup nat no_decay 0; ParamGroup nat decay 0.01] /\
    In 1%nat no_decay /\
    (In 1%nat decay ->
     exists name, In (name, 1%nat) model
                  /\ no_decay_rule nat shape [] name 1%nat = false).
Proof.
  intros shape requires_grad model.
  assert (H1 : In (("fc" ++ ".bias")%string, 1%nat) model)
    by (right; left; reflexivity).
  split; [exact H1 |]. split; [reflexivity |].
  apply (bias_not_decayed nat shape requires_grad model 0.01 []
           "fc"%string 1%nat H1 eq_refl).
Defined.

Lemma checkpoint_NoDup :
  NoDup (map fst [("a"%string, 1%nat); ("c"%string, 3%nat)]).
Proof.
  simpl. constructor; [intros [H | []]; discriminate |].
  constructor; [intros [] | constructor].
Defined.

Lemma model_dict_NoDup :
  NoDup (map fst [("a"%string, 0%nat); ("b"%string, 0%nat)]).
Proof.
  simpl. constructor; [intros [H | []]; discriminate |].
  constructor; [intros [] | constructor].
Defined.

Lemma load_weights_overrides_witness :
  let weights := [("a"%string, 1%nat); ("c"%string, 3%nat)] in
  let model := [("a"%string, 0%nat); ("b"%string, 0%nat)] in
  NoDup (map fst weights) /\ NoDup (map fst model) /\
  load_weights nat (state_dict nat) (fun m => m) (fun _ d => d) model weights
  = [("a"%string, 1%nat); ("b"%string, 0%nat)].
Proof.
  intros weights model.
  split; [exact checkpoint_NoDup |]. split; [exact model_dict_NoDup |].
  apply (load_weights_overrides nat (state_dict nat) (fun m => m)
           (fun _ d => d) model weights checkpoint_NoDup model_dict_NoDup).
Defined.

Lemma load_weights_keys_witness :
  let weights := [("a"%string, 1%nat); ("c"%string, 3%nat)] in
  let model := [("a"%string, 0%nat); ("b"%string, 0%nat)] in
  NoDup (map fst weights) /\ NoDup (map fst model) /\
  map fst (dict_update nat model (matching_weights nat weights model))
  = map fst model.
Proof.
  intros weights model.
  split; [exact checkpoint_NoDup |]. split; [exact model_dict_NoDup |].
  apply (proj1 (load_weights_keys nat model weights
                  checkpoint_NoDup model_dict_NoDup)).
Defined.

Lemma load_weights_idempotent_witness :
  let weights := [("a"%string, 1%nat); ("c"%string, 3%nat)] in
  let model := [("a"%string, 0%nat); ("b"%string, 0%nat)] in
  let merge d := dict_update nat d (matching_weights nat weights d) in
  NoDup (map fst weights) /\ NoDup (map fst model) /\
  merge (merge model) = merge model.
Proof.
  intros weights model merge.
  split; [exact checkpoint_NoDup |]. split; [exact model_dict_NoDup |].
  apply (load_weights_idempotent nat model weights
           checkpoint_NoDup model_dict_NoDup).
Defined.

Lemma two_labels_in_range :
  Forall (fun i => (0 <= i < 3)%Z) [1%Z; 0%Z].
Proof. repeat constructor; lia. Defined.

Lemma one_hot_indices_witness :
  0 <= 0.1 < 1 /\ (2 <= 3)%Z /\
  Forall (fun i => (0 <= i < 3)%Z) [1%Z; 0%Z] /\
  exists rows,
    one_hot_encode (ClassIndices [1%Z; 0%Z]) 3 0.1 = Returned rows /\
    Forall2
      (fun i row =>
         length row = Z.to_nat 3 /\
         nth (Z.to_nat i) row 0 = 1 - 0.1 /\
         (forall j, (j < Z.to_nat 3)%nat -> j <> Z.to_nat i ->
                    nth j row 0 = 0.1 / IZR (3 - 1)) /\
         total row = 1)
      [1%Z; 0%Z] rows.
Proof.
  assert (H1 : 0 <= 0.1 < 1) by lra.
  assert (H2 : (2 <= 3)%Z) by lia.
  split; [exact H1 |]. split; [exact H2 |].
  split; [exact two_labels_in_range |].
  apply (one_hot_indices [1%Z; 0%Z] 3 0.1 H1 H2 two_labels_in_range).
Defined.

Lemma one_hot_indices_errors_witness :
  0 <= 0.1 < 1 /\
  (one_hot_encode (ClassIndices [1%Z; 0%Z]) 1 0.1
   = Failed Division_by_zero <-> 1%Z = 1%Z).
Proof.
  assert (H1 : 0 <= 0.1 < 1) by lra.
  split; [exact H1 |].
  apply (proj1 (one_hot_indices_errors [1%Z; 0%Z] 1 0.1 H1)).
Defined.

Lemma one_hot_round_trip_witness :
  let rows := [scatter_row 2 (0 / IZR (2 - 1)) (1 - 0) 1] in
  one_hot_encode (ClassIndices [1%Z]) 2 0 = Returned rows /\
  one_hot_encode (Dense (Z.to_nat 2) rows) 2 0 = Returned rows.
Proof.
  intros rows.
  assert (H1 : one_hot_encode (ClassIndices [1%Z]) 2 0 = Returned rows).
  { unfold one_hot_encode.
    destruct (Rle_dec 0 0) as [_ | Hn]; [| lra].
    destruct (Rlt_dec 0 1) as [_ | Hn]; [| lra].
    reflexivity. }
  split; [exact H1 |].
  apply (one_hot_round_trip [1%Z] 2 rows H1).
Defined.

Lemma one_hot_dense_rows_witness :
  0 <= 0.1 < 1 /\
  exists out,
    one_hot_encode (Dense 2 [[1; 0]]) (Z.of_nat 2) 0.1 = Returned out /\
    Forall2
      (fun row o =>
         length o = length row /\
         total o =
           INR (count_occ Req_dec_T row 1) * (1 - 0.1)
           + INR (length row - count_occ Req_dec_T row 1) * 0.1)
      [[1; 0]] out.
Proof.
  assert (H1 : 0 <= 0.1 < 1) by lra.
  split; [exact H1 |].
  apply (one_hot_dense_rows 2 [[1; 0]] 0.1 H1).
Defined.

Lemma forward_nonnegative_witness :
  (forall i j : nat, (i < 1)%nat -> (j < 2)%nat -> 0 <= 1) /\
  (forall (w : nat -> R) (j : nat),
     Some (fun _ : nat => 2) = Some w -> (j < 2)%nat -> 0 <= w j) /\
  exists x,
    forward (Some (fun _ => 2)) "mean" 1 2 (fun _ _ => 0) (fun _ _ => 1)
    = Scalar x /\ 0 <= x.
Proof.
  assert (H1 : forall i j : nat, (i < 1)%nat -> (j < 2)%nat -> 0 <= 1)
    by (intros; lra).
  assert (H2 : forall (w : nat -> R) (j : nat),
             Some (fun _ : nat => 2) = Some w -> (j < 2)%nat -> 0 <= w j).
  { intros w j Hw _. inversion Hw; subst w. lra. }
  split; [exact H1 |]. split; [exact H2 |].
  apply (forward_nonnegative (Some (fun _ => 2)) "mean" 1 2
           (fun _ _ => 0) (fun _ _ => 1) H1 H2).
  - lia.
  - right. reflexivity.
Defined.

Lemma forward_one_hot_witness :
  (forall i : nat, (i < 1)%nat -> (0 < 2)%nat) /\
  forward None "none" 1 2 (fun _ _ => 0)
          (fun _ j => if (j =? 0)%nat then 1 else 0)
  = PerSample
      (map (fun _ : nat => ln (range_sum 2 (fun _ => exp 0)) - 0) (seq 0 1)).
Proof.
  assert (H1 : forall i : nat, (i < 1)%nat -> (0 < 2)%nat) by (intros; lia).
  split; [exact H1 |].
  apply (forward_one_hot "none" 1 2 (fun _ _ => 0) (fun _ => 0%nat) H1).
Defined.
